(** * Pentatonic: chord symbols to transposed pentatonic scales in solfege

    A shallow embedding of [pentatonic.py]: the chord parser
    [get_root_and_type], the scale generator [get_pentatonic_scale_notes],
    the instrument table [get_transposition_semitones], the renderer
    [get_solfege_name] and the counting phase of [run_analysis_gui],
    followed by the properties the specification states about them.

    Python values are modelled as follows.
    - [str] is a list of Unicode code points ([N]); literals are written
      [lit "..."] and decoded from the UTF-8 bytes of the Rocq string.
    - [int] is [Z]; [%] is [Z.modulo] (the divisor is always 12).
    - a [dict] is a [gmap]; a [list] is a [list].
    - a computation is a value of [res]: it returns or raises. *)

From Stdlib Require Import ZArith NArith Ascii String.
From stdpp Require Import gmap list strings sorting.

Local Open Scope Z_scope.

(** ** Python primitives *)

Module Py.

(** Exceptions the modelled code could raise. *)
Inductive exn := IndexError | KeyError.

(** The outcome of evaluating a Python expression or running a function. *)
Inductive res (A : Type) :=
| Ret (a : A)
| Raise (e : exn).
Global Arguments Ret {A} a.
Global Arguments Raise {A} e.

Definition bind {A B} (m : res A) (k : A → res B) : res B :=
  match m with
  | Ret a => k a
  | Raise e => Raise e
  end.

Global Instance res_ret : MRet res := @Ret.
Global Instance res_bind : MBind res := λ A B k m, bind m k.

(** Running a computation over a list, left to right (a comprehension or a
    [for] loop that appends one result per element). *)
Fixpoint for_each {A B} (f : A → res B) (l : list A) : res (list B) :=
  match l with
  | [] => Ret []
  | x :: l' => y ← f x; ys ← for_each f l'; Ret (y :: ys)
  end.

(** Code points of the characters the program names. *)
Definition ch_sharp : N := 35%N.      (* '#' *)
Definition ch_b : N := 98%N.          (* 'b' *)
Definition ch_m : N := 109%N.         (* 'm' *)
Definition ch_flat : N := 9837%N.     (* U+266D MUSIC FLAT SIGN *)

(** UTF-8 decoding of a well-formed byte sequence. *)
Fixpoint utf8_decode (bs : list N) : list N :=
  match bs with
  | [] => []
  | b :: bs' =>
      if (b <? 128)%N then b :: utf8_decode bs'
      else if (b <? 224)%N then
        match bs' with
        | c1 :: r => ((b mod 32) * 64 + c1 mod 64)%N :: utf8_decode r
        | _ => []
        end
      else if (b <? 240)%N then
        match bs' with
        | c1 :: c2 :: r =>
            (((b mod 16) * 64 + c1 mod 64) * 64 + c2 mod 64)%N :: utf8_decode r
        | _ => []
        end
      else
        match bs' with
        | c1 :: c2 :: c3 :: r =>
            ((((b mod 8) * 64 + c1 mod 64) * 64 + c2 mod 64) * 64 + c3 mod 64)%N
              :: utf8_decode r
        | _ => []
        end
  end.

(** A [str] literal. *)
Definition lit (s : string) : list N :=
  utf8_decode (N_of_ascii <$> list_ascii_of_string s).
Global Arguments lit s%_string.

(** [len(s)] *)
Definition len {A} (l : list A) : Z := Z.of_nat (length l).

(** [l[i]] on a list: negative indices count from the end, anything out
    of range raises [IndexError]. *)
Definition getitem {A} (l : list A) (i : Z) : res A :=
  let j := if i <? 0 then len l + i else i in
  if j <? 0 then Raise IndexError
  else match l !! Z.to_nat j with
       | Some x => Ret x
       | None => Raise IndexError
       end.

(** [s[i]] on a [str]: a string of one character. *)
Definition str_getitem (s : list N) (i : Z) : res (list N) :=
  c ← getitem s i; Ret [c].

(** [s[:i]] *)
Definition slice_to {A} (l : list A) (i : Z) : list A :=
  let j := if i <? 0 then Z.max 0 (len l + i) else i in
  take (Z.to_nat j) l.

(** [d[k]] on a dict. *)
Definition dict_getitem {V} (d : gmap (list N) V) (k : list N) : res V :=
  match d !! k with
  | Some v => Ret v
  | None => Raise KeyError
  end.

(** [d.get(k, default)] *)
Definition dict_get {V} (d : gmap (list N) V) (k : list N) (dflt : V) : V :=
  default dflt (d !! k).

(** [c in s] for a one-character string [c]. *)
Definition contains (c : N) (s : list N) : bool := bool_decide (c ∈ s).

(** [x in l] for a list of strings. *)
Definition in_list (x : list N) (l : list (list N)) : bool := bool_decide (x ∈ l).

(** [k in d] for a dict. *)
Definition in_dict {V} (k : list N) (d : gmap (list N) V) : bool :=
  bool_decide (is_Some (d !! k)).

(** [s.find(c)] for a one-character string [c]: the first index, or -1. *)
Fixpoint find (c : N) (s : list N) : Z :=
  match s with
  | [] => -1
  | x :: s' =>
      if bool_decide (x = c) then 0
      else let r := find c s' in if r <? 0 then -1 else r + 1
  end.

(** The part of the Unicode character database the program consults
    outside ASCII: [str.isalpha], [str.isspace] (used by [strip]) and the
    full upper-case mapping (used by [upper]).  The ASCII range and the
    flat sign, the only other character the program mentions, are fixed
    below; the rest of the tables is a parameter of the development. *)
Record unicode := Unicode {
  uni_isalpha : N → bool;
  uni_isspace : N → bool;
  uni_upper : N → list N;
}.

Section Tables.
Context (U : unicode).

Definition ascii_upper_letter (c : N) : bool := ((65 <=? c) && (c <=? 90))%N.
Definition ascii_lower_letter (c : N) : bool := ((97 <=? c) && (c <=? 122))%N.

Definition char_isalpha (c : N) : bool :=
  if (c <? 128)%N then ascii_upper_letter c || ascii_lower_letter c
  else if (c =? ch_flat)%N then false
  else uni_isalpha U c.

Definition char_isspace (c : N) : bool :=
  if (c <? 128)%N then
    ((9 <=? c) && (c <=? 13) || (28 <=? c) && (c <=? 32))%N
  else if (c =? ch_flat)%N then false
  else uni_isspace U c.

Definition char_upper (c : N) : list N :=
  if (c <? 128)%N then [if ascii_lower_letter c then (c - 32)%N else c]
  else if (c =? ch_flat)%N then [c]
  else uni_upper U c.

(** [s.isalpha()] *)
Definition isalpha (s : list N) : bool :=
  negb (bool_decide (s = [])) && forallb char_isalpha s.

(** [s.upper()] *)
Definition upper (s : list N) : list N := s ≫= char_upper.

Fixpoint lstrip (s : list N) : list N :=
  match s with
  | c :: s' => if char_isspace c then lstrip s' else s
  | [] => []
  end.

(** [s.strip()] *)
Definition strip (s : list N) : list N := reverse (lstrip (reverse (lstrip s))).
End Tables.

End Py.

Import Py.

(** A dict display or comprehension: items are inserted left to right, a
    later item replacing an earlier one with the same key. *)
Definition dict_of {V} (items : list (list N * V)) : gmap (list N) V :=
  list_to_map (reverse items).

(** ** The pitch tables (lines 7-21) *)

Definition ENHARMONIC_EQUIVALENTS : gmap (list N) (list N) :=
  dict_of [ (lit "C#", lit "Db"); (lit "Db", lit "C#");
            (lit "D#", lit "Eb"); (lit "Eb", lit "D#");
            (lit "F#", lit "Gb"); (lit "Gb", lit "F#");
            (lit "G#", lit "Ab"); (lit "Ab", lit "G#");
            (lit "A#", lit "Bb"); (lit "Bb", lit "A#") ].

Definition NOTES_SHARP : list (list N) :=
  [ lit "C"; lit "C#"; lit "D"; lit "D#"; lit "E"; lit "F";
    lit "F#"; lit "G"; lit "G#"; lit "A"; lit "A#"; lit "B" ].

Definition NOTE_TO_INT : gmap (list N) Z :=
  dict_of (imap (λ i note, (note, Z.of_nat i)) NOTES_SHARP).

Definition SOLFEGE_SHARP : list (list N) :=
  [ lit "ド"; lit "ド#"; lit "レ"; lit "レ#"; lit "ミ"; lit "ファ";
    lit "ファ#"; lit "ソ"; lit "ソ#"; lit "ラ"; lit "ラ#"; lit "シ" ].

Definition SOLFEGE_FLAT : list (list N) :=
  [ lit "ド"; lit "レb"; lit "レ"; lit "ミb"; lit "ミ"; lit "ファ";
    lit "ソb"; lit "ソ"; lit "ラb"; lit "ラ"; lit "シb"; lit "シ" ].

(** The three values of [notation_type]: the strings "sharp", "flat" and
    "natural". *)
Inductive notation := sharp | flat | natural.

Global Instance notation_eq_dec : EqDecision notation.
Proof. solve_decision. Defined.

(** ** [collections.Counter] and [most_common]

    A [Counter] is a dict whose items keep the order in which their keys
    were first inserted, so it is modelled as an association list.
    [most_common(n)] is [heapq.nlargest(n, items, key=count)], which the
    library documents as [sorted(items, key=count, reverse=True)[:n]]: a
    stable sort, so items of equal count keep their order. *)

Section Counter.
Context {A : Type} `{EqDecision A}.

(** [c[x] += 1] *)
Fixpoint counter_add (x : A) (c : list (A * nat)) : list (A * nat) :=
  match c with
  | [] => [(x, 1%nat)]
  | (y, n) :: c' =>
      if bool_decide (y = x) then (y, S n) :: c'
      else (y, n) :: counter_add x c'
  end.

(** [Counter(iterable)] *)
Definition Counter (l : list A) : list (A * nat) :=
  foldl (λ c x, counter_add x c) [] l.

(** Insertion of an item in front of a list sorted by descending count:
    it goes after the items of greater count and before the rest. *)
Fixpoint insert_by_count (x : A * nat) (l : list (A * nat)) : list (A * nat) :=
  match l with
  | [] => [x]
  | y :: l' =>
      if (x.2 <? y.2)%nat then y :: insert_by_count x l'
      else x :: y :: l'
  end.

(** [sorted(items, key=count, reverse=True)] *)
Definition sorted_by_count (c : list (A * nat)) : list (A * nat) :=
  foldr insert_by_count [] c.

Definition most_common (n : nat) (c : list (A * nat)) : list (A * nat) :=
  take n (sorted_by_count c).
End Counter.

Section Program.
Context (U : unicode).

(** ** The chord parser (lines 24-69) *)

(** Lines 32-45: the minor flag and the root candidate.  Only the first
    'm' of the string, the one [find] returns, is looked at. *)
Definition minor_marker (code_name_raw : list N) : res (bool * list N) :=
  if contains ch_m code_name_raw then
    let m_index := find ch_m code_name_raw in
    is_marker ←
      (if bool_decide (m_index > 0) then
         if bool_decide (m_index + 1 = len code_name_raw) then Ret true
         else next ← str_getitem code_name_raw (m_index + 1);
              Ret (negb (isalpha U next))
       else Ret false);
    if is_marker : bool then Ret (true, slice_to code_name_raw m_index)
    else Ret (false, code_name_raw)
  else Ret (false, code_name_raw).

(** Line 51: the test a prefix has to pass. *)
Definition is_root_spelling (potential_root : list N) : bool :=
  in_list potential_root NOTES_SHARP
  || in_dict potential_root ENHARMONIC_EQUIVALENTS.

(** Lines 55-60. *)
Definition notation_of (root_note_str : list N) : notation :=
  if contains ch_sharp root_note_str then sharp
  else if contains ch_b root_note_str || contains ch_flat root_note_str then flat
  else natural.

(** Lines 48-62: [for i in range(len(root_part_candidate), 0, -1)], as a
    recursion on the number of prefixes still to try. *)
Fixpoint find_root (root_part_candidate : list N) (i : nat) : option (list N) :=
  match i with
  | O => None
  | S i' =>
      let potential_root := slice_to root_part_candidate (Z.of_nat i) in
      if is_root_spelling potential_root then Some potential_root
      else find_root root_part_candidate i'
  end.

(** The result [None] stands for the triple [(None, None, None)]; every
    other return of the function is a triple of three values. *)
Definition get_root_and_type (code_name_raw : list N)
  : res (option (list N * bool * notation)) :=
  if bool_decide (code_name_raw = []) then Ret None
  else
    '(is_minor_chord, root_part_candidate) ← minor_marker code_name_raw;
    match find_root root_part_candidate (length root_part_candidate) with
    | Some root_note_str =>
        Ret (Some (root_note_str, is_minor_chord, notation_of root_note_str))
    | None =>
        if bool_decide (len root_part_candidate >= 1) then
          first ← str_getitem root_part_candidate 0;
          if in_list first NOTES_SHARP
          then Ret (Some (first, is_minor_chord, natural))
          else Ret None
        else Ret None
    end.

(** ** The pentatonic generator (lines 72-99) *)

(** Line 94. *)
Definition intervals (is_minor_chord : bool) : list Z :=
  if is_minor_chord then [0; 3; 5; 7; 10] else [0; 2; 4; 7; 9].

(** Line 97. *)
Definition scale_notes_sharp (root_int : Z) (is_minor_chord : bool)
  : res (list (list N)) :=
  for_each (λ i, getitem NOTES_SHARP ((root_int + i) mod 12))
           (intervals is_minor_chord).

(** Lines 82-87. *)
Definition root_for_calc (root_note_str_orig : list N) : option (list N) :=
  if contains ch_b root_note_str_orig || contains ch_flat root_note_str_orig
  then ENHARMONIC_EQUIVALENTS !! root_note_str_orig
  else Some root_note_str_orig.

Definition get_pentatonic_scale_notes (code_name_raw : list N)
  : res (option (list (list N) * bool * notation)) :=
  parsed ← get_root_and_type code_name_raw;
  match parsed with
  | None => Ret None
  | Some (root_note_str_orig, is_minor_chord, notation_type) =>
      if bool_decide (root_note_str_orig = []) then Ret None
      else
        match root_for_calc root_note_str_orig with
        | None => Ret None
        | Some root =>
            if negb (in_dict root NOTE_TO_INT) then Ret None
            else
              root_int ← dict_getitem NOTE_TO_INT root;
              notes ← scale_notes_sharp root_int is_minor_chord;
              Ret (Some (notes, is_minor_chord, notation_type))
        end
  end.

(** ** The transposer (lines 101-115, 293-295) *)

Definition transpositions : gmap (list N) Z :=
  dict_of [ (lit "C", 0); (lit "BB", 2); (lit "B♭", 2);
            (lit "EB", 9); (lit "E♭", 9); (lit "F", 7) ].

(** [None] is the value the function returns for a key that is not in
    the table. *)
Definition get_transposition_semitones (instrument_key : list N) : option Z :=
  let key := upper U (strip U instrument_key) in
  transpositions !! key.

(** Line 294. *)
Definition transposed_idx (idx_sharp transposition : Z) : Z :=
  (idx_sharp + transposition) mod 12.

(** ** The solfege renderer (lines 117-146) *)

(** Lines 123-125. *)
Definition is_flat_notation (note_name : list N) : bool :=
  contains ch_b note_name || contains ch_flat note_name.

(** Lines 127-130. *)
Definition note_for_idx (note_name : list N) : list N :=
  if is_flat_notation note_name
  then dict_get ENHARMONIC_EQUIVALENTS note_name note_name
  else note_name.

Definition get_solfege_name (note_name_sharp_or_flat base_note_sharp : list N)
  : res (list N) :=
  let note := note_for_idx note_name_sharp_or_flat in
  if negb (in_dict note NOTE_TO_INT) then Ret note_name_sharp_or_flat
  else
    note_index ← dict_getitem NOTE_TO_INT note;
    c_index ← dict_getitem NOTE_TO_INT (lit "C");
    let base_index := dict_get NOTE_TO_INT base_note_sharp c_index in
    let relative_index := (note_index - base_index + 12) mod 12 in
    if is_flat_notation note_name_sharp_or_flat
    then getitem SOLFEGE_FLAT relative_index
    else getitem SOLFEGE_SHARP relative_index.

(** ** The analysis (lines 236-313) *)

(** Lines 297-307. *)
Definition note_for_solfege (transposed_note_sharp : list N)
    (is_minor_chord : bool) (notation_type : notation) : list N :=
  if bool_decide (notation_type = flat)
     || (bool_decide (notation_type = natural) && is_minor_chord)
  then
    let note :=
      dict_get ENHARMONIC_EQUIVALENTS transposed_note_sharp transposed_note_sharp in
    if is_minor_chord then
      if bool_decide (transposed_note_sharp = lit "D#") then lit "Eb"
      else if bool_decide (transposed_note_sharp = lit "G#") then lit "Ab"
      else if bool_decide (transposed_note_sharp = lit "A#") then lit "Bb"
      else note
    else note
  else transposed_note_sharp.

(** Lines 293-307: the note handed to the renderer. *)
Definition transposed_note_for_solfege (transposition : Z)
    (is_minor_chord : bool) (notation_type : notation) (note_sharp : list N)
  : res (list N) :=
  idx_sharp ← dict_getitem NOTE_TO_INT note_sharp;
  transposed_note_sharp ← getitem NOTES_SHARP (transposed_idx idx_sharp transposition);
  Ret (note_for_solfege transposed_note_sharp is_minor_chord notation_type).

(** Lines 293-309. *)
Definition solfege_note (transposition : Z) (is_minor_chord : bool)
    (notation_type : notation) (note_sharp : list N) : res (list N) :=
  note ← transposed_note_for_solfege transposition is_minor_chord notation_type note_sharp;
  get_solfege_name note (lit "C").

(** Lines 289-310, for one chord. *)
Definition chord_solfege_notes (transposition : Z) (chord_name_raw : list N)
  : res (list (list N)) :=
  scale_data ← get_pentatonic_scale_notes chord_name_raw;
  match scale_data with
  | Some (scale, is_minor_chord, notation_type) =>
      for_each (solfege_note transposition is_minor_chord notation_type) scale
  | None => Ret []
  end.

(** Lines 287-310. *)
Definition all_solfege_notes_for_counting (transposition : Z)
    (all_measures_data : list (list (list N))) : res (list (list N)) :=
  per_measure ←
    for_each (λ measure_chords,
                per_chord ← for_each (chord_solfege_notes transposition) measure_chords;
                Ret (concat per_chord))
             all_measures_data;
  Ret (concat per_measure).

(** Lines 312-313. *)
Definition top_3_notes_info (all_solfege : list (list N)) : list (list N * nat) :=
  most_common 3 (Counter all_solfege).

(** What the form holds when the button is pressed.  [measure_count] is
    the value of [int(measure_count_var.get())], [None] when the
    conversion raises [ValueError]. *)
Record form := Form {
  key_var : list N;
  measure_count : option Z;
  measure_vars : list (list N * list N);
}.

(** How the handler ends: with one of its message boxes, or with the
    data of the counting phase, from which the display is drawn. *)
Inductive outcome :=
| KeyMissing
| KeyInvalid
| CountInvalid
| NoChords
| Analysed (all_measures_data : list (list (list N)))
           (all_solfege : list (list N))
           (top_3 : list (list N * nat)).

(** Lines 270-278. *)
Definition measure_chords (vars : list (list N * list N)) (i : nat)
  : list (list N) :=
  match vars !! i with
  | Some (var1, var2) =>
      let chord1 := strip U var1 in
      let chord2 := strip U var2 in
      (if bool_decide (chord1 = []) then [] else [chord1])
      ++ (if bool_decide (chord2 = []) then [] else [chord2])
  | None => []
  end.

(** Lines 236-313; the display phase that follows draws its text from
    the same data and is not modelled. *)
Definition run_analysis_gui (f : form) : res outcome :=
  let key := strip U (key_var f) in
  let transposition := get_transposition_semitones key in
  if bool_decide (key = []) then Ret KeyMissing
  else
    match transposition with
    | None => Ret KeyInvalid
    | Some transposition =>
        match measure_count f with
        | None => Ret CountInvalid
        | Some selected_measures_count =>
            let all_measures_data :=
              measure_chords (measure_vars f)
                <$> seq 0 (Z.to_nat selected_measures_count) in
            if negb (existsb (λ chord_list, negb (bool_decide (chord_list = [])))
                             all_measures_data)
            then Ret NoChords
            else
              all_solfege ←
                all_solfege_notes_for_counting transposition all_measures_data;
              Ret (Analysed all_measures_data all_solfege
                            (top_3_notes_info all_solfege))
        end
    end.
End Program.

(** ** The transposition of a note (lines 293-295) *)

(** Lines 293-295: the sharp spelling of a scale note after transposition. *)
Definition transposed_note_sharp (transposition : Z) (note_sharp : list N)
  : res (list N) :=
  idx_sharp ← dict_getitem NOTE_TO_INT note_sharp;
  getitem NOTES_SHARP (transposed_idx idx_sharp transposition).

(** ** The form (lines 149-158, 181-220) *)

Definition MAX_MEASURES : Z := 24.

Definition chord_options : list (list N) :=
  [ lit "";
    lit "C"; lit "Cm"; lit "C#"; lit "C#m"; lit "Db"; lit "Dbm"; lit "D";
    lit "Dm"; lit "D#"; lit "D#m"; lit "Eb"; lit "Ebm"; lit "E"; lit "Em";
    lit "F"; lit "Fm";
    lit "F#"; lit "F#m"; lit "Gb"; lit "Gbm"; lit "G"; lit "Gm"; lit "G#";
    lit "G#m"; lit "Ab"; lit "Abm"; lit "A"; lit "Am"; lit "A#"; lit "A#m";
    lit "Bb"; lit "Bbm"; lit "B"; lit "Bm" ].

(** Lines 181-220, on the part of the form the analysis reads: the rows
    are rebuilt, each with its two boxes set to [chord_options[0]]; a count
    that is no integer, or lies outside 1..[MAX_MEASURES], is replaced by
    8 after a warning.  The first component tells whether the warning was
    shown.  The widgets themselves are not modelled. *)
Definition update_measure_inputs (f : form) : res (bool * form) :=
  blank ← getitem chord_options 0;
  let rows (n : Z) := replicate (Z.to_nat n) (blank, blank) in
  match measure_count f with
  | Some num_measures =>
      if bool_decide (1 ≤ num_measures) && bool_decide (num_measures ≤ MAX_MEASURES)
      then Ret (false, Form (key_var f) (Some num_measures) (rows num_measures))
      else Ret (true, Form (key_var f) (Some 8) (rows 8))
  | None => Ret (true, Form (key_var f) (Some 8) (rows 8))
  end.

(** ** The display (lines 315-399) *)

(** The line feed. *)
Definition nl : list N := [10%N].

Fixpoint digits (d : Decimal.uint) : list N :=
  match d with
  | Decimal.Nil => []
  | Decimal.D0 d => 48%N :: digits d
  | Decimal.D1 d => 49%N :: digits d
  | Decimal.D2 d => 50%N :: digits d
  | Decimal.D3 d => 51%N :: digits d
  | Decimal.D4 d => 52%N :: digits d
  | Decimal.D5 d => 53%N :: digits d
  | Decimal.D6 d => 54%N :: digits d
  | Decimal.D7 d => 55%N :: digits d
  | Decimal.D8 d => 56%N :: digits d
  | Decimal.D9 d => 57%N :: digits d
  end.

(** [str(n)], and [f"{n}"], for an int. *)
Definition str_of_int (n : Z) : list N :=
  match Z.to_int n with
  | Decimal.Pos d => digits d
  | Decimal.Neg d => 45%N :: digits d
  end.

(** [f"{n:2d}"]: right-aligned in a field of two characters. *)
Definition format_2d (n : Z) : list N :=
  let s := str_of_int n in
  replicate (2 - length s) 32%N ++ s.

(** [d[k] = v] on a dict whose items are kept in insertion order. *)
Fixpoint odict_set {V} (k : list N) (v : V) (d : list (list N * V))
  : list (list N * V) :=
  match d with
  | [] => [(k, v)]
  | (k', v') :: d' =>
      if bool_decide (k' = k) then (k', v) :: d'
      else (k', v') :: odict_set k v d'
  end.

(** Line 316. *)
Definition colors : list (list N) := [ lit "red"; lit "blue"; lit "green" ].

(** [f"highlight_{k}"] *)
Definition highlight_tag (k : Z) : list N := lit "highlight_" ++ str_of_int k.

(** Lines 317-319, from index [i] on. *)
Fixpoint highlight_colors_from (i : Z) (top_3 : list (list N * nat))
    (highlight_colors_map : list (list N * list N))
  : res (list (list N * list N)) :=
  match top_3 with
  | [] => Ret highlight_colors_map
  | (note, count) :: rest =>
      if bool_decide (i < len colors) then
        color ← getitem colors i;
        highlight_colors_from (i + 1) rest (odict_set note color highlight_colors_map)
      else highlight_colors_from (i + 1) rest highlight_colors_map
  end.

(** Lines 315-319. *)
Definition highlight_colors_map (top_3 : list (list N * nat))
  : res (list (list N * list N)) :=
  highlight_colors_from 0 top_3 [].

(** Lines 322-326: the tags configured, each with its foreground colour. *)
Definition tag_configs (highlight_colors_map : list (list N * list N))
  : list (list N * list N) :=
  imap (λ i item, (highlight_tag (Z.of_nat i + 1), item.2)) highlight_colors_map.

(** Lines 368-372, from index [k] on: the tag of a syllable, if any. *)
Fixpoint find_tag (solfege_note : list N) (k : Z)
    (items : list (list N * list N)) : option (list N) :=
  match items with
  | [] => None
  | (top_note, color) :: rest =>
      if bool_decide (solfege_note = top_note) then Some (highlight_tag (k + 1))
      else find_tag solfege_note (k + 1) rest
  end.

(** Lines 367-380: the syllables of one chord, each inserted under its
    tag, with a space between two of them. *)
Definition display_syllables (highlight_colors_map : list (list N * list N))
    (solfege_notes_display : list (list N)) : list (list N * option (list N)) :=
  concat (imap (λ j solfege_note,
                  (solfege_note, find_tag solfege_note 0 highlight_colors_map)
                  :: (if bool_decide (Z.of_nat j < len solfege_notes_display - 1)
                      then [(lit " ", None)] else []))
               solfege_notes_display).

Section Display.
Context (U : unicode).

(** Lines 338-384: what is inserted for one chord, as (text, tag) pairs. *)
Definition display_chord (transposition : Z)
    (highlight_colors_map : list (list N * list N)) (chord_name_raw : list N)
  : res (list (list N * option (list N))) :=
  scale_data ← get_pentatonic_scale_notes U chord_name_raw;
  match scale_data with
  | Some (scale, is_minor_chord, notation_type) =>
      solfege_notes_display ←
        for_each (solfege_note transposition is_minor_chord notation_type) scale;
      Ret ([(lit "   " ++ chord_name_raw ++ lit ": ", None)]
           ++ display_syllables highlight_colors_map solfege_notes_display
           ++ [(nl, None)])
  | None =>
      Ret [(lit "   " ++ chord_name_raw ++ lit ": 無効なコード" ++ nl, None)]
  end.

(** Lines 331-385, for the measure of index [i]. *)
Definition display_measure (transposition : Z)
    (highlight_colors_map : list (list N * list N))
    (i : nat) (measure_chords : list (list N))
  : res (list (list N * option (list N))) :=
  let header := (lit " " ++ format_2d (Z.of_nat i + 1) ++ lit "小節目:" ++ nl, None) in
  if bool_decide (measure_chords = []) then
    Ret [header; (lit "  （コードなし）" ++ nl ++ nl, None)]
  else
    chords ← for_each (display_chord transposition highlight_colors_map) measure_chords;
    Ret ([header] ++ concat chords ++ [(nl, None)]).

(** Lines 391-398, from index [i] on. *)
Fixpoint legend_items (i : Z) (top_3 : list (list N * nat))
  : list (list N * option (list N)) :=
  match top_3 with
  | [] => []
  | (note, count) :: rest =>
      if bool_decide (i < len colors) then
        [ (lit "   • ", None);
          (note, Some (highlight_tag (i + 1)));
          (lit " (" ++ str_of_int (Z.of_nat count) ++ lit "回出現)" ++ nl, None) ]
        ++ legend_items (i + 1) rest
      else []
  end.

(** Lines 388-399. *)
Definition legend (top_3 : list (list N * nat))
  : list (list N * option (list N)) :=
  if bool_decide (top_3 = []) then []
  else [ (lit "---" ++ nl, None); (lit "【出現頻度の高い記譜音】" ++ nl, None) ]
       ++ legend_items 0 top_3 ++ [(nl, None)].

(** Lines 315-399: the tags configured and the text inserted, in order. *)
Definition display_phase (key : list N) (transposition : Z)
    (all_measures_data : list (list (list N))) (top_3 : list (list N * nat))
  : res (list (list N * list N) * list (list N * option (list N))) :=
  highlight_colors_map ← highlight_colors_map top_3;
  measures ←
    for_each (λ '(i, measure_chords),
                display_measure transposition highlight_colors_map i measure_chords)
             (imap (λ i measure_chords, (i, measure_chords)) all_measures_data);
  Ret (tag_configs highlight_colors_map,
       [ (lit "--- ペンタトニックスケール表示 --- 記譜音(" ++ key ++ lit "管)" ++ nl ++ nl,
          None) ]
       ++ concat measures ++ legend top_3).
End Display.

(** * The vocabulary of the specification *)

(** ** Spellings and pitch classes *)

(** The five flat spellings. *)
Definition NOTES_FLAT_ONLY : list (list N) :=
  [ lit "Db"; lit "Eb"; lit "Gb"; lit "Ab"; lit "Bb" ].

(** The spellings a root can have: twelve sharps and five flats. *)
Definition ROOT_SPELLINGS : list (list N) := NOTES_SHARP ++ NOTES_FLAT_ONLY.

(** The flat spelling of each pitch class: the flat name of the five
    pitches that have one, and the only name of the seven others. *)
Definition NOTES_FLAT : list (list N) :=
  [ lit "C"; lit "Db"; lit "D"; lit "Eb"; lit "E"; lit "F";
    lit "Gb"; lit "G"; lit "Ab"; lit "A"; lit "Bb"; lit "B" ].

(** The pitch class of a spelling: flats are first turned into the sharp
    they are equivalent to, as lines 82-92 do. *)
Definition pitch_class (spelling : list N) : option Z :=
  root_for_calc spelling ≫= λ sharp_spelling, NOTE_TO_INT !! sharp_spelling.

(** ** Minor markers *)

(** Position [i] holds the first 'm' of the string. *)
Definition first_m (chord : list N) (i : nat) : Prop :=
  chord !! i = Some ch_m ∧ ∀ j : nat, (j < i)%nat → chord !! j ≠ Some ch_m.

(** The rule of the specification for the 'm' at position [i]: it comes
    after the first character, and it ends the string or a character
    that is not a letter follows it. *)
Definition marker_rule (U : unicode) (chord : list N) (i : nat) : Prop :=
  (0 < i)%nat
  ∧ (S i = length chord
     ∨ ∃ c, chord !! S i = Some c ∧ char_isalpha U c = false).

(** ** Instrument keys *)

(** The keys of the table of line 107. *)
Definition TRANSPOSITION_KEYS : list (list N) :=
  [ lit "C"; lit "BB"; lit "B♭"; lit "EB"; lit "E♭"; lit "F" ].

(** The other case of an ASCII letter; any other character is left as it
    is. *)
Definition ascii_swapcase (c : N) : N :=
  if ascii_lower_letter c then (c - 32)%N
  else if ascii_upper_letter c then (c + 32)%N
  else c.

(** Two strings that differ only in the case of ASCII letters. *)
Definition same_up_to_case (s t : list N) : Prop :=
  Forall2 (λ c d, d = c ∨ d = ascii_swapcase c) s t.

(** A table for which no character outside ASCII is a letter or white
    space, or has an upper-case form of its own. *)
Definition ascii_only : unicode := Unicode (λ _, false) (λ _, false) (λ c, [c]).

(** ** Spelling preference *)

(** The rule of the specification for preferring flats. *)
Definition prefers_flat (notation_type : notation) (is_minor_chord : bool) : Prop :=
  notation_type = flat ∨ (notation_type = natural ∧ is_minor_chord = true).

Global Instance prefers_flat_dec nt m : Decision (prefers_flat nt m).
Proof. unfold prefers_flat. apply _. Defined.

(** ** Ranking *)

Section RankingVocabulary.
Context {A : Type} `{EqDecision A}.
Local Open Scope nat_scope.

(** How often [x] occurs in [l]. *)
Fixpoint occurrences (x : A) (l : list A) : nat :=
match l with
| [] => 0
| y :: l' => (if bool_decide (y = x) then 1 else 0) + occurrences x l'
end.

(** The position at which [x] is first encountered in [l], and the
  length of [l] when it is not. *)
Fixpoint first_position (x : A) (l : list A) : nat :=
match l with
| [] => 0
| y :: l' => if bool_decide (y = x) then 0 else S (first_position x l')
end.

(** The distinct elements of [l], in the order they are first
  encountered. *)
Definition first_seen (l : list A) : list A :=
foldl (λ ks x, if decide (x ∈ ks) then ks else ks ++ [x]) [] l.

(** The order of the ranking over the items of a tally of [l]: a
  greater count first, and among equal counts the element that was
  encountered first. *)
Definition ranks_before (l : list A) (a b : A * nat) : Prop :=
b.2 < a.2 ∨ (a.2 = b.2 ∧ first_position a.1 l < first_position b.1 l).
End RankingVocabulary.

(** ** Roots, alphabets and tallies *)

(** The resolution of a root from the first two characters alone. *)
Definition root_of_first_two (s : list N) : option (list N) :=
  if is_root_spelling (take 2 s) then Some (take 2 s)
  else if is_root_spelling (take 1 s) then Some (take 1 s)
  else None.

(** The alphabet a spelling is rendered in. *)
Definition alphabet_of (note : list N) : list (list N) :=
  if decide (note ∈ NOTES_FLAT_ONLY) then SOLFEGE_FLAT else SOLFEGE_SHARP.

(** The alphabet the notes of a chord are rendered in. *)
Definition chord_alphabet (notation_type : notation) (is_minor_chord : bool)
  : list (list N) :=
  if decide (prefers_flat notation_type is_minor_chord)
  then SOLFEGE_FLAT else SOLFEGE_SHARP.

(** A chord symbol the parser resolves to a root. *)
Definition recognised (U : unicode) (chord : list N) : bool :=
  match get_root_and_type U chord with
  | Ret (Some _) => true
  | _ => false
  end.

(** The syllables a chord contributes to the tally. *)
Definition syllables_of (U : unicode) (transposition : Z) (chord : list N)
  : list (list N) :=
  match chord_solfege_notes U transposition chord with
  | Ret syllables => syllables
  | Raise _ => []
  end.

(** ** The displayed text *)

(** A line of syllables: each under the tag [tag] gives it, two
    neighbours separated by one untagged space. *)
Fixpoint spaced_syllables (tag : list N → option (list N))
    (syllables : list (list N)) : list (list N * option (list N)) :=
  match syllables with
  | [] => []
  | syllable :: rest =>
      (syllable, tag syllable)
      :: match rest with
         | [] => []
         | _ :: _ => (lit " ", None) :: spaced_syllables tag rest
         end
  end.

(** Every tagged piece of the inserted text is an item of the ranking,
    under the tag of its rank. *)
Definition tagged_by_rank (top : list (list N * nat))
    (inserted : list (list N * option (list N))) : Prop :=
  ∀ text tag, (text, Some tag) ∈ inserted →
    ∃ (k : nat) count,
      top !! k = Some (text, count) ∧ tag = highlight_tag (Z.of_nat k + 1).

(** ** White space *)

(** A string [strip] leaves alone: it is empty, or it neither begins nor
    ends with white space. *)
Definition trimmed (U : unicode) (s : list N) : Prop :=
  s = []
  ∨ ((∃ c, head s = Some c ∧ char_isspace U c = false)
     ∧ (∃ d, last s = Some d ∧ char_isspace U d = false)).

(** A string of white space only. *)
Definition blank (U : unicode) (s : list N) : Prop :=
  Forall (λ c, char_isspace U c = true) s.

(** ** Case analysis over the tables *)

(** Splitting membership in a list of literals into its cases. *)
Ltac elem_cases H :=
  repeat (apply elem_of_cons in H as [H|H]; [subst|]);
  try (apply elem_of_nil in H; destruct H).

(** Splitting a pitch class into its twelve values. *)
Ltac pitch_cases p :=
  let H := fresh in
  assert (p = 0 ∨ p = 1 ∨ p = 2 ∨ p = 3 ∨ p = 4 ∨ p = 5 ∨ p = 6
          ∨ p = 7 ∨ p = 8 ∨ p = 9 ∨ p = 10 ∨ p = 11) as H by lia;
  repeat (destruct H as [H|H]; [subst p|]); [..|subst p].

(** * Properties *)

(** ** Python primitives *)

Lemma bind_Ret {A B} (m : res A) (k : A → res B) (b : B) :
  m ≫= k = Ret b → ∃ a, m = Ret a ∧ k a = Ret b.
Proof. destruct m as [a|e]; [eauto | discriminate]. Qed.

Lemma getitem_in_range {A} (l : list A) (i : nat) (x : A) :
  l !! i = Some x → getitem l (Z.of_nat i) = Ret x.
Proof.
  intros Hx. unfold getitem.
  destruct (Z.ltb_spec (Z.of_nat i) 0) as [?|_]; [lia|].
  destruct (Z.ltb_spec (Z.of_nat i) 0) as [?|_]; [lia|].
  by rewrite Nat2Z.id, Hx.
Qed.

Lemma slice_to_take {A} (l : list A) (i : nat) :
  slice_to l (Z.of_nat i) = take i l.
Proof.
  unfold slice_to. destruct (Z.ltb_spec (Z.of_nat i) 0) as [?|_]; [lia|].
  by rewrite Nat2Z.id.
Qed.

Lemma contains_true c s : contains c s = true ↔ c ∈ s.
Proof. unfold contains. apply bool_decide_eq_true. Qed.

Lemma contains_false c s : contains c s = false ↔ c ∉ s.
Proof. unfold contains. apply bool_decide_eq_false. Qed.

(** [find] returns the position of the first occurrence, or -1. *)
Lemma find_spec (c : N) (s : list N) :
  (find c s = -1 ∧ c ∉ s)
  ∨ ∃ i : nat, find c s = Z.of_nat i ∧ s !! i = Some c
               ∧ ∀ j : nat, (j < i)%nat → s !! j ≠ Some c.
Proof.
  induction s as [|x s IH]; simpl.
  - left. split; [done | apply not_elem_of_nil].
  - case_bool_decide as Hx.
    + right. exists 0%nat. subst. split; [done|]. split; [done|]. intros; lia.
    + destruct IH as [[Hf Hn] | (i & Hf & Hi & Hlt)].
      * left. rewrite Hf. split; [done|]. intros [?|?]%elem_of_cons; [congruence | done].
      * right. exists (S i). rewrite Hf.
        destruct (Z.ltb_spec (Z.of_nat i) 0) as [?|_]; [lia|].
        split; [lia|]. split; [done|].
        intros [|j] Hj; simpl; [congruence | apply Hlt; lia].
Qed.

(** A dict built from items has exactly their keys. *)
Lemma dict_of_is_Some {V} (items : list (list N * V)) (k : list N) :
  is_Some (dict_of items !! k) ↔ k ∈ items.*1.
Proof.
  unfold dict_of.
  rewrite <- elem_of_dom, dom_list_to_map_L, elem_of_list_to_set.
  by rewrite fmap_reverse, elem_of_reverse.
Qed.

Lemma in_dict_of {V} (items : list (list N * V)) (k : list N) :
  in_dict k (dict_of items) = true ↔ k ∈ items.*1.
Proof. unfold in_dict. rewrite bool_decide_eq_true. apply dict_of_is_Some. Qed.

(** ** The pitch tables *)

Lemma in_NOTE_TO_INT (note : list N) :
  in_dict note NOTE_TO_INT = true ↔ note ∈ NOTES_SHARP.
Proof. unfold NOTE_TO_INT. rewrite in_dict_of. by vm_compute fmap. Qed.

Lemma in_ENHARMONIC_EQUIVALENTS (note : list N) :
  in_dict note ENHARMONIC_EQUIVALENTS = true
  ↔ note ∈ [ lit "C#"; lit "Db"; lit "D#"; lit "Eb"; lit "F#"; lit "Gb";
             lit "G#"; lit "Ab"; lit "A#"; lit "Bb" ].
Proof. unfold ENHARMONIC_EQUIVALENTS. rewrite in_dict_of. by vm_compute fmap. Qed.

Lemma is_root_spelling_iff (r : list N) :
  is_root_spelling r = true ↔ r ∈ ROOT_SPELLINGS.
Proof.
  unfold is_root_spelling, in_list.
  rewrite orb_true_iff, bool_decide_eq_true, in_ENHARMONIC_EQUIVALENTS.
  unfold ROOT_SPELLINGS. rewrite elem_of_app. split.
  - intros [H|H]; [by left|]. elem_cases H;
      first [ right; by vm_compute; set_solver | left; vm_compute; set_solver ].
  - intros [H|H]; [by left|]. right. elem_cases H; vm_compute; set_solver.
Qed.

(** ** The chord parser *)

Section Parser.
Context (U : unicode).

Lemma first_m_unique chord i j : first_m chord i → first_m chord j → i = j.
Proof.
  intros [Hi Hlti] [Hj Hltj].
  destruct (Nat.lt_trichotomy i j) as [?|[?|?]]; [|done|].
  - by apply Hltj in Hi.
  - by apply Hlti in Hj.
Qed.

Lemma first_m_find chord i : first_m chord i → find ch_m chord = Z.of_nat i.
Proof.
  intros Hi. destruct (find_spec ch_m chord) as [[_ Hn] | (k & Hf & Hk & Hlt)].
  - destruct Hi as [Hi _]. apply list_elem_of_lookup_2 in Hi. done.
  - rewrite Hf. f_equal. by apply (first_m_unique chord).
Qed.

Lemma isalpha_single c : isalpha U [c] = char_isalpha U c.
Proof. unfold isalpha. simpl. by rewrite andb_true_r. Qed.

(** The three ways [minor_marker] ends; it never raises. *)
Lemma minor_marker_spec (chord : list N) :
  ((ch_m ∉ chord) ∧ minor_marker U chord = Ret (false, chord))
  ∨ (∃ i, first_m chord i
          ∧ ((marker_rule U chord i
              ∧ minor_marker U chord = Ret (true, take i chord))
             ∨ (¬ marker_rule U chord i
                ∧ minor_marker U chord = Ret (false, chord)))).
Proof.
  unfold minor_marker.
  destruct (find_spec ch_m chord) as [[_ Hn] | (i & Hf & Hi & Hlt)].
  - left. split; [done|]. by rewrite (proj2 (contains_false _ _) Hn).
  - right. exists i. split; [by split|].
    rewrite (proj2 (contains_true _ _) (list_elem_of_lookup_2 _ _ _ Hi)), Hf.
    pose proof (lookup_lt_Some _ _ _ Hi) as Hlen.
    unfold marker_rule. case_bool_decide as Hpos; simpl.
    + case_bool_decide as Hlast; simpl.
      * left. rewrite slice_to_take. unfold len in Hlast.
        split; [|done]. split; [lia|]. left. lia.
      * unfold len in Hlast.
        destruct (lookup_lt_is_Some_2 chord (S i)) as [c Hc]; [lia|].
        unfold str_getitem.
        replace (Z.of_nat i + 1) with (Z.of_nat (S i)) by lia.
        rewrite (getitem_in_range _ _ _ Hc). simpl.
        rewrite isalpha_single.
        destruct (char_isalpha U c) eqn:Ha; simpl.
        -- right. split; [|done]. intros [_ [?|(c' & Hc' & Ha')]]; [lia|].
           congruence.
        -- left. rewrite slice_to_take. split; [|done].
           split; [lia|]. right. eauto.
    + right. split; [|done]. intros [? _]. lia.
Qed.

(** The loop over the prefixes returns the longest prefix of length at
    most [i] that is a spelling, and nothing when there is none. *)
Lemma find_root_Some (cand : list N) (i : nat) (root : list N) :
  find_root cand i = Some root →
  ∃ k : nat, (1 ≤ k ≤ i)%nat ∧ root = take k cand ∧ root ∈ ROOT_SPELLINGS
    ∧ ∀ j : nat, (k < j ≤ i)%nat → take j cand ∉ ROOT_SPELLINGS.
Proof.
  induction i as [|i IH]; [done|].
  cbn [find_root]. rewrite slice_to_take.
  destruct (is_root_spelling (take (S i) cand)) eqn:Hs.
  - intros [= <-]. exists (S i). apply is_root_spelling_iff in Hs.
    repeat split; [lia | lia | done | intros; lia].
  - intros (k & Hk & -> & Hin & Hno)%IH. exists k.
    repeat split; [lia | lia | done |].
    intros j Hj. destruct (decide (j = S i)) as [->|]; [|apply Hno; lia].
    rewrite <- is_root_spelling_iff. by rewrite Hs.
Qed.

Lemma find_root_None (cand : list N) (i : nat) :
  find_root cand i = None ↔
  ∀ j : nat, (1 ≤ j ≤ i)%nat → take j cand ∉ ROOT_SPELLINGS.
Proof.
  induction i as [|i IH].
  - split; [intros _ j ?; lia | done].
  - cbn [find_root]. rewrite slice_to_take.
    destruct (is_root_spelling (take (S i) cand)) eqn:Hs.
    + split; [done|]. intros Hno. apply is_root_spelling_iff in Hs.
      destruct (Hno (S i)); [lia | done].
    + rewrite IH. split; intros Hno j Hj; [|apply Hno; lia].
      destruct (decide (j = S i)) as [->|]; [|apply Hno; lia].
      rewrite <- is_root_spelling_iff. by rewrite Hs.
Qed.

(** After the loop has failed, the test of line 65 fails too. *)
Lemma fallback_dead (cand : list N) (is_minor_chord : bool) :
  find_root cand (length cand) = None →
  (if bool_decide (len cand >= 1) then
     first ← str_getitem cand 0;
     if in_list first NOTES_SHARP
     then Ret (Some (first, is_minor_chord, natural)) else Ret None
   else Ret None) = Ret None.
Proof.
  intros Hno. case_bool_decide as Hlen; [|done].
  destruct cand as [|c cand]; [unfold len in Hlen; simpl in Hlen; lia|].
  rewrite find_root_None in Hno. specialize (Hno 1%nat).
  pose proof (getitem_in_range (c :: cand) 0 c eq_refl) as Hget.
  unfold str_getitem. change (Z.of_nat 0) with 0 in Hget. rewrite Hget. simpl. unfold in_list. case_bool_decide as Hin; [|done].
  destruct Hno; [simpl; lia|]. unfold ROOT_SPELLINGS.
  rewrite elem_of_app. by left.
Qed.

(** The parser never raises: it returns what the prefix loop finds for
    the candidate [minor_marker] hands it. *)
Lemma get_root_and_type_spec (chord : list N) :
  ∃ is_minor_chord cand,
    minor_marker U chord = Ret (is_minor_chord, cand)
    ∧ get_root_and_type U chord =
        Ret (match find_root cand (length cand) with
             | Some root => Some (root, is_minor_chord, notation_of root)
             | None => None
             end).
Proof.
  assert (∃ is_minor_chord cand,
             minor_marker U chord = Ret (is_minor_chord, cand))
    as (is_minor_chord & cand & Hmm).
  { destruct (minor_marker_spec chord)
      as [[_ H] | (i & _ & [[_ H] | [_ H]])]; eauto. }
  exists is_minor_chord, cand. split; [done|].
  unfold get_root_and_type. case_bool_decide as Hempty.
  - subst chord. vm_compute in Hmm. by injection Hmm as <- <-.
  - rewrite Hmm. simpl.
    destruct (find_root cand (length cand)) eqn:Hroot; [done|].
    by apply fallback_dead.
Qed.

Lemma get_root_and_type_Some (chord root : list N) is_minor_chord notation_type :
  get_root_and_type U chord = Ret (Some (root, is_minor_chord, notation_type)) →
  root ∈ ROOT_SPELLINGS ∧ notation_type = notation_of root.
Proof.
  destruct (get_root_and_type_spec chord) as (m & cand & _ & ->).
  destruct (find_root cand (length cand)) eqn:Hroot; [|done].
  intros [= -> -> ->]. split; [|done].
  by apply find_root_Some in Hroot as (k & _ & _ & ? & _).
Qed.
End Parser.

(** C2, as amended: the parser looks at the first 'm' of the chord symbol
    only.  That 'm' is the minor marker exactly when it comes after the
    first character and either ends the string or is followed by a
    character that is not a letter; the root candidate is then the part
    before it, and the whole string otherwise, also when the string has no
    'm'.  The flag of a successful parse is the one found here, so "Cm"
    and "Dm7" are minor and "Cmaj7" is not. *)
Theorem minor_marker_first_m (U : unicode) (chord : list N) :
  ∃ is_minor_chord cand,
    minor_marker U chord = Ret (is_minor_chord, cand)
    ∧ (is_minor_chord = true ↔ ∃ i, first_m chord i ∧ marker_rule U chord i)
    ∧ (∀ i, first_m chord i → marker_rule U chord i → cand = take i chord)
    ∧ (is_minor_chord = false → cand = chord)
    ∧ (∀ root m nt,
         get_root_and_type U chord = Ret (Some (root, m, nt)) → m = is_minor_chord)
    ∧ get_root_and_type U (lit "Cm") = Ret (Some (lit "C", true, natural))
    ∧ get_root_and_type U (lit "Dm7") = Ret (Some (lit "D", true, natural))
    ∧ get_root_and_type U (lit "Cmaj7") = Ret (Some (lit "C", false, natural)).
Proof.
  destruct (get_root_and_type_spec U chord) as (m & cand & Hmm & Hparse).
  exists m, cand. split; [done|].
  assert (∀ root m' nt,
            get_root_and_type U chord = Ret (Some (root, m', nt)) → m' = m)
    as Hflag.
  { intros root m' nt. rewrite Hparse.
    destruct (find_root cand (length cand)); [|done]. by intros [= _ <- _]. }
  destruct (minor_marker_spec U chord)
    as [[Hno H] | (i & Hi & [[Hrule H] | [Hrule H]])];
    rewrite Hmm in H; injection H as -> ->.
  - split; [|split; [|done]].
    + split; [done|]. intros (i & [Hi _] & _).
      by apply list_elem_of_lookup_2 in Hi.
    + intros i [Hi _]. by apply list_elem_of_lookup_2 in Hi.
  - split; [|split; [|done]].
    + split; eauto.
    + intros j Hj _. by rewrite (first_m_unique chord j i).
  - split; [|split; [|done]].
    + split; [done|]. intros (j & Hj & Hr).
      by rewrite (first_m_unique chord j i) in Hr.
    + intros j Hj Hr. by rewrite (first_m_unique chord j i) in Hr.
Qed.

Lemma minor_marker_first_m_witness :
  ∃ i, first_m (lit "Dm7") i ∧ marker_rule ascii_only (lit "Dm7") i.
Proof.
  destruct (minor_marker_first_m ascii_only (lit "Dm7"))
    as (is_minor_chord & cand & Hmm & Hrule & _).
  vm_compute in Hmm. injection Hmm as <- <-.
  exact (proj1 Hrule eq_refl).
Defined.

(** C2, as stated, fails on "Cmajm": its last character is an 'm' that
    comes after the first character and ends the string, yet it is not
    treated as a minor marker: the flag is false and the root candidate is
    the whole string, because the first 'm' is followed by a letter. *)
Lemma minor_marker_later_m_ignored :
  ∃ chord i,
    chord = lit "Cmajm" ∧ chord !! i = Some ch_m
    ∧ (∀ U, marker_rule U chord i)
    ∧ (∀ U, minor_marker U chord = Ret (false, chord))
    ∧ (∀ U, minor_marker U chord ≠ Ret (true, take i chord))
    ∧ (∀ U, get_root_and_type U chord = Ret (Some (lit "C", false, natural))).
Proof.
  exists (lit "Cmajm"), 4%nat. split; [done|]. split; [done|].
  split; [|split; [|split]]; intros U.
  - split; [lia|]. by left.
  - by vm_compute.
  - by vm_compute.
  - by vm_compute.
Qed.

(** C3: the root is the longest prefix of the root candidate, of length
    at least 1, that is one of the seventeen spellings (twelve sharps and
    five flats); the parser returns its failure result exactly when no
    such prefix is a spelling.  So "C#" yields the root "C#", not "C", and
    "F#m7b5" the root "F#". *)
Theorem root_is_longest_spelling (U : unicode) (chord : list N) :
  ∃ is_minor_chord cand,
    minor_marker U chord = Ret (is_minor_chord, cand)
    ∧ (get_root_and_type U chord = Ret None
       ↔ ∀ j : nat, (1 ≤ j ≤ length cand)%nat → take j cand ∉ ROOT_SPELLINGS)
    ∧ (∀ root m nt,
         get_root_and_type U chord = Ret (Some (root, m, nt)) →
         ∃ k : nat, (1 ≤ k ≤ length cand)%nat ∧ root = take k cand
           ∧ root ∈ ROOT_SPELLINGS
           ∧ ∀ j : nat, (k < j ≤ length cand)%nat → take j cand ∉ ROOT_SPELLINGS)
    ∧ (∀ r, is_root_spelling r = true ↔ r ∈ ROOT_SPELLINGS)
    ∧ length ROOT_SPELLINGS = 17%nat ∧ NoDup ROOT_SPELLINGS
    ∧ get_root_and_type U (lit "C#") = Ret (Some (lit "C#", false, sharp))
    ∧ get_root_and_type U (lit "F#m7b5") = Ret (Some (lit "F#", true, sharp)).
Proof.
  destruct (get_root_and_type_spec U chord) as (m & cand & Hmm & ->).
  exists m, cand. split; [done|].
  split; [|split; [|split; [|split; [|split]]]].
  - rewrite <- find_root_None.
    destruct (find_root cand (length cand)); split; congruence.
  - intros root m' nt.
    destruct (find_root cand (length cand)) eqn:Hroot; [|done].
    intros [= -> _ _]. by apply find_root_Some.
  - apply is_root_spelling_iff.
  - done.
  - apply (bool_decide_unpack _). by vm_compute.
  - split; by vm_compute.
Qed.

Lemma root_is_longest_spelling_witness :
  get_root_and_type ascii_only (lit "F#m7b5") = Ret (Some (lit "F#", true, sharp))
  ∧ ∃ k : nat, lit "F#" = take k (lit "F#") ∧ lit "F#" ∈ ROOT_SPELLINGS.
Proof.
  destruct (root_is_longest_spelling ascii_only (lit "F#m7b5"))
    as (is_minor_chord & cand & Hmm & _ & Hroot & _ & _ & _ & _ & Hparse).
  split; [exact Hparse|].
  destruct (Hroot _ _ _ Hparse) as (k & _ & Hk & Hin & _).
  vm_compute in Hmm. injection Hmm as <- <-.
  exists k. split; [exact Hk | exact Hin].
Defined.

(** C6: the notation of a parsed chord is sharp when its root contains
    '#', flat when it contains 'b' or the flat sign, and natural
    otherwise; "C#" parses to (C#, major, sharp), "Dbm7" to (Db, minor,
    flat) and "F" to (F, major, natural). *)
Theorem notation_of_parsed_root (U : unicode) (chord root : list N)
    (is_minor_chord : bool) (notation_type : notation) :
  get_root_and_type U chord = Ret (Some (root, is_minor_chord, notation_type)) →
  (ch_sharp ∈ root → notation_type = sharp)
  ∧ (ch_sharp ∉ root → ch_b ∈ root ∨ ch_flat ∈ root → notation_type = flat)
  ∧ (ch_sharp ∉ root → ch_b ∉ root → ch_flat ∉ root → notation_type = natural)
  ∧ get_root_and_type U (lit "C#") = Ret (Some (lit "C#", false, sharp))
  ∧ get_root_and_type U (lit "Dbm7") = Ret (Some (lit "Db", true, flat))
  ∧ get_root_and_type U (lit "F") = Ret (Some (lit "F", false, natural)).
Proof.
  intros [_ ->]%get_root_and_type_Some. unfold notation_of.
  split; [|split; [|split]].
  - intros H%contains_true. by rewrite H.
  - intros H%contains_false [Hb%contains_true | Hf%contains_true];
      rewrite H, ?Hb, ?Hf; [done | by rewrite orb_true_r].
  - intros H%contains_false Hb%contains_false Hf%contains_false.
    by rewrite H, Hb, Hf.
  - repeat split; by vm_compute.
Qed.

Lemma notation_of_parsed_root_witness :
  get_root_and_type ascii_only (lit "Dbm7") = Ret (Some (lit "Db", true, flat))
  ∧ (ch_sharp ∉ lit "Db" → ch_b ∈ lit "Db" ∨ ch_flat ∈ lit "Db" → flat = flat).
Proof.
  assert (get_root_and_type ascii_only (lit "Dbm7")
          = Ret (Some (lit "Db", true, flat))) as H by (by vm_compute).
  split; [exact H|].
  exact (proj1 (proj2 (notation_of_parsed_root ascii_only _ _ _ _ H))).
Defined.

(** C10: on the empty string the parser returns its failure result, the
    one it returns for a chord it does not recognise, and on no string
    does it raise. *)
Theorem parser_total (U : unicode) :
  get_root_and_type U (lit "") = Ret None
  ∧ get_root_and_type U (lit "X") = get_root_and_type U (lit "")
  ∧ ∀ chord, ∃ parsed, get_root_and_type U chord = Ret parsed.
Proof.
  split; [by vm_compute|]. split; [by vm_compute|].
  intros chord. destruct (get_root_and_type_spec U chord) as (m & cand & _ & ->).
  eauto.
Qed.

(** ** The pentatonic generator *)

Lemma pitch_class_spelling (root : list N) :
  root ∈ ROOT_SPELLINGS → ∃ k, pitch_class root = Some k ∧ 0 ≤ k < 12.
Proof.
  intros H. unfold ROOT_SPELLINGS in H. apply elem_of_app in H as [H|H];
    elem_cases H; eexists; (split; [by vm_compute | lia]).
Qed.

(** Once the chord is parsed the generator cannot fail: it returns the
    scale on the pitch class of the root. *)
Lemma get_pentatonic_scale_notes_parsed (U : unicode) (chord root : list N)
    (is_minor_chord : bool) (notation_type : notation) :
  get_root_and_type U chord = Ret (Some (root, is_minor_chord, notation_type)) →
  ∃ root_int,
    pitch_class root = Some root_int ∧ 0 ≤ root_int < 12
    ∧ get_pentatonic_scale_notes U chord =
        (notes ← scale_notes_sharp root_int is_minor_chord;
         Ret (Some (notes, is_minor_chord, notation_type))).
Proof.
  intros Hparse. unfold get_pentatonic_scale_notes. rewrite Hparse.
  apply get_root_and_type_Some in Hparse as [Hroot _].
  unfold ROOT_SPELLINGS in Hroot. apply elem_of_app in Hroot as [H|H];
    elem_cases H; destruct is_minor_chord;
    eexists; (split; [by vm_compute|]); (split; [lia|]); by vm_compute.
Qed.

Lemma scale_notes_sharp_total (root_int : Z) (is_minor_chord : bool) :
  0 ≤ root_int < 12 →
  ∃ notes, scale_notes_sharp root_int is_minor_chord = Ret notes
           ∧ length notes = 5%nat ∧ NoDup notes ∧ notes ⊆ NOTES_SHARP
           ∧ head notes = NOTES_SHARP !! Z.to_nat root_int.
Proof.
  intros H. pitch_cases root_int; destruct is_minor_chord;
    eexists; (split; [by vm_compute|]); (split; [done|]);
    (split; [apply (bool_decide_unpack _); by vm_compute|]);
    (split; [|done]); apply (bool_decide_unpack _); by vm_compute.
Qed.

(** C1: for a root pitch class 0..11 and a minor flag the generator
    returns, in order, the sharp spellings of (root + interval) mod 12 for
    the intervals 0, 2, 4, 7, 9 (major) or 0, 3, 5, 7, 10 (minor): five
    distinct notes, the first of them the root.  This is the scale
    [get_pentatonic_scale_notes] returns for every chord that parses to
    that root and flag; C major gives C D E G A and A minor A C D E G. *)
Theorem pentatonic_scale (U : unicode) (root_int : Z) (is_minor_chord : bool) :
  0 ≤ root_int < 12 →
  ∃ notes,
    scale_notes_sharp root_int is_minor_chord = Ret notes
    ∧ intervals is_minor_chord
      = (if is_minor_chord then [0; 3; 5; 7; 10] else [0; 2; 4; 7; 9])
    ∧ Forall2 (λ note i, NOTES_SHARP !! Z.to_nat ((root_int + i) mod 12) = Some note)
              notes (intervals is_minor_chord)
    ∧ length notes = 5%nat ∧ NoDup notes
    ∧ head notes = NOTES_SHARP !! Z.to_nat root_int
    ∧ (∀ chord root notation_type,
         get_root_and_type U chord = Ret (Some (root, is_minor_chord, notation_type)) →
         pitch_class root = Some root_int →
         get_pentatonic_scale_notes U chord
         = Ret (Some (notes, is_minor_chord, notation_type)))
    ∧ (∀ chord root m notation_type,
         get_root_and_type U chord = Ret (Some (root, m, notation_type)) →
         ∃ k, pitch_class root = Some k ∧ 0 ≤ k < 12)
    ∧ scale_notes_sharp 0 false
      = Ret [lit "C"; lit "D"; lit "E"; lit "G"; lit "A"]
    ∧ scale_notes_sharp 9 true
      = Ret [lit "A"; lit "C"; lit "D"; lit "E"; lit "G"]
    ∧ get_pentatonic_scale_notes U (lit "C")
      = Ret (Some ([lit "C"; lit "D"; lit "E"; lit "G"; lit "A"], false, natural))
    ∧ get_pentatonic_scale_notes U (lit "Am")
      = Ret (Some ([lit "A"; lit "C"; lit "D"; lit "E"; lit "G"], true, natural)).
Proof.
  intros Hrange.
  destruct (scale_notes_sharp_total root_int is_minor_chord Hrange)
    as (notes & Hnotes & Hlen & Hdup & _ & Hhead).
  exists notes. split; [done|]. split; [done|]. split.
  { clear Hlen Hdup Hhead. pitch_cases root_int; destruct is_minor_chord;
      vm_compute in Hnotes; injection Hnotes as <-; by repeat constructor. }
  split; [done|]. split; [done|]. split; [done|]. split.
  { intros chord root nt Hparse Hpc.
    destruct (get_pentatonic_scale_notes_parsed U _ _ _ _ Hparse)
      as (k & Hk & _ & ->).
    rewrite Hpc in Hk. injection Hk as <-. by rewrite Hnotes. }
  split.
  { intros chord root m nt [Hroot _]%get_root_and_type_Some.
    by apply pitch_class_spelling. }
  repeat split; by vm_compute.
Qed.

Lemma pentatonic_scale_witness :
  0 ≤ 9 < 12
  ∧ ∃ notes, scale_notes_sharp 9 true = Ret notes ∧ length notes = 5%nat.
Proof.
  assert (0 ≤ 9 < 12) as H by lia. split; [exact H|].
  destruct (pentatonic_scale ascii_only 9 true H)
    as (notes & Hnotes & _ & _ & Hlen & _).
  exists notes. split; [exact Hnotes | exact Hlen].
Defined.

(** ** The transposer *)

Section Transposer.
Context (U : unicode).

Lemma ascii_swapcase_cases (c : N) :
  ascii_swapcase c = c
  ∨ ((97 ≤ c ≤ 122)%N ∧ ascii_swapcase c = (c - 32)%N)
  ∨ ((65 ≤ c ≤ 90)%N ∧ ascii_swapcase c = (c + 32)%N).
Proof.
  unfold ascii_swapcase, ascii_lower_letter, ascii_upper_letter.
  destruct (N.leb_spec 97 c), (N.leb_spec c 122),
    (N.leb_spec 65 c), (N.leb_spec c 90); simpl; auto; lia.
Qed.

Lemma char_upper_swapcase (c : N) :
  char_upper U (ascii_swapcase c) = char_upper U c.
Proof.
  destruct (ascii_swapcase_cases c) as [->|[[Hc ->]|[Hc ->]]]; [done|..];
    unfold char_upper, ascii_lower_letter.
  - destruct (N.ltb_spec (c - 32) 128), (N.ltb_spec c 128); try lia.
    destruct (N.leb_spec 97 (c - 32)), (N.leb_spec 97 c),
      (N.leb_spec c 122); simpl; try lia. done.
  - destruct (N.ltb_spec (c + 32) 128), (N.ltb_spec c 128); try lia.
    destruct (N.leb_spec 97 (c + 32)), (N.leb_spec (c + 32) 122),
      (N.leb_spec 97 c); simpl; try lia. f_equal. lia.
Qed.

Lemma char_isspace_swapcase (c : N) :
  char_isspace U (ascii_swapcase c) = char_isspace U c.
Proof.
  destruct (ascii_swapcase_cases c) as [->|[[Hc ->]|[Hc ->]]]; [done|..];
    unfold char_isspace.
  - destruct (N.ltb_spec (c - 32) 128), (N.ltb_spec c 128); try lia.
    destruct (N.leb_spec 9 (c - 32)), (N.leb_spec (c - 32) 13),
      (N.leb_spec 28 (c - 32)), (N.leb_spec (c - 32) 32),
      (N.leb_spec 9 c), (N.leb_spec c 13),
      (N.leb_spec 28 c), (N.leb_spec c 32); simpl; lia || done.
  - destruct (N.ltb_spec (c + 32) 128), (N.ltb_spec c 128); try lia.
    destruct (N.leb_spec 9 (c + 32)), (N.leb_spec (c + 32) 13),
      (N.leb_spec 28 (c + 32)), (N.leb_spec (c + 32) 32),
      (N.leb_spec 9 c), (N.leb_spec c 13),
      (N.leb_spec 28 c), (N.leb_spec c 32); simpl; lia || done.
Qed.

Lemma lstrip_same_up_to_case (s t : list N) :
  same_up_to_case s t → same_up_to_case (lstrip U s) (lstrip U t).
Proof.
  induction 1 as [|c d s t Hcd Hst IH]; simpl; [constructor|].
  assert (char_isspace U d = char_isspace U c) as ->.
  { destruct Hcd as [->| ->]; [done | apply char_isspace_swapcase]. }
  destruct (char_isspace U c); [done | by constructor].
Qed.

Lemma strip_same_up_to_case (s t : list N) :
  same_up_to_case s t → same_up_to_case (strip U s) (strip U t).
Proof.
  intros H. unfold strip, same_up_to_case.
  apply Forall2_reverse, lstrip_same_up_to_case.
  apply Forall2_reverse, lstrip_same_up_to_case, H.
Qed.

Lemma upper_same_up_to_case (s t : list N) :
  same_up_to_case s t → upper U s = upper U t.
Proof.
  unfold upper. induction 1 as [|c d s t Hcd Hst IH]; [done|].
  rewrite !bind_cons, IH. f_equal.
  destruct Hcd as [->| ->]; [done | symmetry; apply char_upper_swapcase].
Qed.

Lemma get_transposition_semitones_Some (key : list N) (o : Z) :
  get_transposition_semitones U key = Some o →
  upper U (strip U key) ∈ TRANSPOSITION_KEYS ∧ o ∈ [0; 2; 7; 9].
Proof.
  unfold get_transposition_semitones. intros Ho.
  assert (upper U (strip U key) ∈ TRANSPOSITION_KEYS) as Hkey.
  { assert (is_Some (transpositions !! upper U (strip U key))) as Hs by eauto.
    apply dict_of_is_Some in Hs. by vm_compute fmap in Hs. }
  split; [done|]. revert Ho. generalize (upper U (strip U key)) Hkey.
  intros k Hk.
  elem_cases Hk; intros Ho; vm_compute in Ho; injection Ho as <-;
    apply (bool_decide_unpack _); by vm_compute.
Qed.
End Transposer.

(** C5: the table maps C to 0, Bb to 2, Eb to 9 and F to 7, with the flat
    written as 'b' or as the flat sign and in either case of the letters:
    two keys that differ only in case get the same answer.  A key whose
    stripped upper-case form is not in the table gets [None], never an
    offset, and the analysis then stops with the invalid-key warning.  The
    transposed pitch class is (pitch class + offset) mod 12: C becomes D
    for a Bb instrument and A for an Eb instrument. *)
Theorem transposition_table (U : unicode) :
  get_transposition_semitones U (lit "C") = Some 0
  ∧ get_transposition_semitones U (lit "Bb") = Some 2
  ∧ get_transposition_semitones U (lit "Eb") = Some 9
  ∧ get_transposition_semitones U (lit "F") = Some 7
  ∧ get_transposition_semitones U (lit "B♭") = Some 2
  ∧ get_transposition_semitones U (lit "E♭") = Some 9
  ∧ get_transposition_semitones U (lit "bb") = Some 2
  ∧ get_transposition_semitones U (lit "e♭") = Some 9
  ∧ (∀ key key',
       same_up_to_case key key' →
       get_transposition_semitones U key' = get_transposition_semitones U key)
  ∧ (∀ key,
       upper U (strip U key) ∉ TRANSPOSITION_KEYS →
       get_transposition_semitones U key = None)
  ∧ (∀ key o,
       get_transposition_semitones U key = Some o →
       upper U (strip U key) ∈ TRANSPOSITION_KEYS ∧ o ∈ [0; 2; 7; 9])
  ∧ get_transposition_semitones U (lit "G") = None
  ∧ (∀ f,
       get_transposition_semitones U (strip U (key_var f)) = None →
       run_analysis_gui U f = Ret KeyMissing ∨ run_analysis_gui U f = Ret KeyInvalid)
  ∧ (∀ idx_sharp transposition,
       transposed_idx idx_sharp transposition = (idx_sharp + transposition) mod 12)
  ∧ NOTE_TO_INT !! lit "C" = Some 0
  ∧ getitem NOTES_SHARP (transposed_idx 0 2) = Ret (lit "D")
  ∧ getitem NOTES_SHARP (transposed_idx 0 9) = Ret (lit "A").
Proof.
  do 8 (split; [by vm_compute|]).
  split.
  { intros key key' H. unfold get_transposition_semitones.
    by rewrite (upper_same_up_to_case U _ _ (strip_same_up_to_case U _ _ H)). }
  split.
  { intros key Hkey.
    destruct (get_transposition_semitones U key) as [o|] eqn:Ho; [|done].
    by apply get_transposition_semitones_Some in Ho as [? _]. }
  split; [apply get_transposition_semitones_Some|].
  split; [by vm_compute|].
  split.
  { intros f Hnone. unfold run_analysis_gui. rewrite Hnone.
    case_bool_decide; auto. }
  split; [done|]. repeat split; by vm_compute.
Qed.

Lemma transposition_table_witness :
  same_up_to_case (lit "Eb") (lit "eB")
  ∧ get_transposition_semitones ascii_only (lit "eB") = Some 9.
Proof.
  assert (same_up_to_case (lit "Eb") (lit "eB")) as H.
  { repeat constructor; by right. }
  split; [exact H|].
  pose proof (transposition_table ascii_only)
    as (_ & _ & HEb & _ & _ & _ & _ & _ & Hcase & _).
  rewrite (Hcase _ _ H). exact HEb.
Defined.

(** C9: transposing a pitch class by the offset of a supported key and
    then by the inverse offset, (12 - offset) mod 12, gives the pitch
    class back, and so the note of [NOTES_SHARP] one started from. *)
Theorem transpose_round_trip (U : unicode) (key : list N) (o p : Z) :
  get_transposition_semitones U key = Some o →
  0 ≤ p < 12 →
  transposed_idx (transposed_idx p o) ((12 - o) mod 12) = p
  ∧ ∃ note there,
      NOTES_SHARP !! Z.to_nat p = Some note
      ∧ getitem NOTES_SHARP (transposed_idx p o) = Ret there
      ∧ (idx ← dict_getitem NOTE_TO_INT there;
         getitem NOTES_SHARP (transposed_idx idx ((12 - o) mod 12))) = Ret note.
Proof.
  intros [_ Ho]%get_transposition_semitones_Some Hp.
  split.
  { unfold transposed_idx. rewrite Z.add_mod_idemp_l, Z.add_mod_idemp_r by lia.
    replace (p + o + (12 - o)) with (p + 1 * 12) by lia.
    rewrite Z.mod_add by lia. apply Z.mod_small. lia. }
  elem_cases Ho; pitch_cases p; do 2 eexists;
    (split; [by vm_compute|]); (split; by vm_compute).
Qed.

Lemma transpose_round_trip_witness :
  get_transposition_semitones ascii_only (lit "Eb") = Some 9
  ∧ 0 ≤ 4 < 12
  ∧ transposed_idx (transposed_idx 4 9) ((12 - 9) mod 12) = 4.
Proof.
  assert (get_transposition_semitones ascii_only (lit "Eb") = Some 9) as Hk
    by (by vm_compute).
  assert (0 ≤ 4 < 12) as Hp by lia.
  split; [exact Hk|]. split; [exact Hp|].
  exact (proj1 (transpose_round_trip ascii_only _ _ _ Hk Hp)).
Defined.

(** ** The solfege renderer *)

Lemma for_each_Forall {A B} (f : A → res B) (P : B → Prop) (l : list A) :
  (∀ x, x ∈ l → ∃ y, f x = Ret y ∧ P y) →
  ∃ ys, for_each f l = Ret ys ∧ Forall P ys.
Proof.
  induction l as [|x l IH]; intros Hf; simpl.
  - exists []. by split.
  - destruct (Hf x) as (y & -> & Hy); [by left|].
    destruct IH as (ys & -> & Hys); [intros; apply Hf; by right|].
    exists (y :: ys). split; [done | by constructor].
Qed.

(** The same, with what each result has to do with its argument. *)
Lemma for_each_Forall2 {A B} (f : A → res B) (R : A → B → Prop) (l : list A) :
  (∀ x, x ∈ l → ∃ y, f x = Ret y ∧ R x y) →
  ∃ ys, for_each f l = Ret ys ∧ Forall2 R l ys.
Proof.
  induction l as [|x l IH]; intros Hf; simpl.
  - exists []. by split.
  - destruct (Hf x) as (y & -> & Hy); [by left|].
    destruct IH as (ys & -> & Hys); [intros; apply Hf; by right|].
    exists (y :: ys). split; [done | by constructor].
Qed.

Lemma Ret_inj {A} (a b : A) : Ret a = Ret b → a = b.
Proof. by intros [= ->]. Qed.

Lemma NOTES_SHARP_index (note_sharp : list N) :
  note_sharp ∈ NOTES_SHARP →
  ∃ idx, dict_getitem NOTE_TO_INT note_sharp = Ret idx ∧ 0 ≤ idx < 12
         ∧ NOTES_SHARP !! Z.to_nat idx = Some note_sharp.
Proof.
  intros H. elem_cases H; eexists; (split; [by vm_compute|]);
    (split; [lia | by vm_compute]).
Qed.

Lemma NOTES_SHARP_lookup (idx : Z) :
  0 ≤ idx < 12 →
  ∃ note_sharp, NOTES_SHARP !! Z.to_nat idx = Some note_sharp
                ∧ getitem NOTES_SHARP idx = Ret note_sharp
                ∧ dict_getitem NOTE_TO_INT note_sharp = Ret idx.
Proof.
  intros H. pitch_cases idx; eexists; (split; [by vm_compute|]);
    (split; by vm_compute).
Qed.

(** What the analysis does with a pitch class once it is transposed. *)
Lemma render_pitch_class (t : Z) (is_minor_chord : bool) (notation_type : notation) :
  0 ≤ t < 12 →
  ∃ transposed_note_sharp flat_spelling syllable,
    NOTES_SHARP !! Z.to_nat t = Some transposed_note_sharp
    ∧ NOTES_FLAT !! Z.to_nat t = Some flat_spelling
    ∧ note_for_solfege transposed_note_sharp is_minor_chord notation_type
      = (if decide (prefers_flat notation_type is_minor_chord)
         then flat_spelling else transposed_note_sharp)
    ∧ get_solfege_name
        (note_for_solfege transposed_note_sharp is_minor_chord notation_type)
        (lit "C") = Ret syllable
    ∧ (if decide (note_for_solfege transposed_note_sharp is_minor_chord
                    notation_type ∈ NOTES_FLAT_ONLY)
       then SOLFEGE_FLAT else SOLFEGE_SHARP) !! Z.to_nat ((t - 0 + 12) mod 12)
      = Some syllable
    ∧ in_dict (note_for_idx (note_for_solfege transposed_note_sharp
                               is_minor_chord notation_type)) NOTE_TO_INT = true
    ∧ bool_decide (note_for_solfege transposed_note_sharp is_minor_chord
                     notation_type ∈ NOTES_SHARP ++ NOTES_FLAT_ONLY) = true.
Proof.
  intros H. pitch_cases t; destruct is_minor_chord, notation_type;
    do 3 eexists; (split; [by vm_compute|]); (split; [by vm_compute|]);
    (split; [by vm_compute|]); (split; [by vm_compute|]);
    (split; [by vm_compute|]); (split; by vm_compute).
Qed.

Lemma transposed_idx_range (idx_sharp transposition : Z) :
  0 ≤ transposed_idx idx_sharp transposition < 12.
Proof. unfold transposed_idx. apply Z.mod_pos_bound. lia. Qed.

(** One pass through the body of the inner loop (lines 293-309), for the
    scale note of pitch class [idx_sharp]. *)
Lemma scale_note_rendered (transposition idx_sharp : Z) (is_minor_chord : bool)
    (notation_type : notation) :
  0 ≤ idx_sharp < 12 →
  ∃ note_sharp transposed_note_sharp flat_spelling note syllable,
    let t := transposed_idx idx_sharp transposition in
    NOTES_SHARP !! Z.to_nat idx_sharp = Some note_sharp
    ∧ NOTES_SHARP !! Z.to_nat t = Some transposed_note_sharp
    ∧ NOTES_FLAT !! Z.to_nat t = Some flat_spelling
    ∧ transposed_note_for_solfege transposition is_minor_chord notation_type
        note_sharp = Ret note
    ∧ note = (if decide (prefers_flat notation_type is_minor_chord)
              then flat_spelling else transposed_note_sharp)
    ∧ solfege_note transposition is_minor_chord notation_type note_sharp
      = Ret syllable
    ∧ (if decide (note ∈ NOTES_FLAT_ONLY) then SOLFEGE_FLAT else SOLFEGE_SHARP)
        !! Z.to_nat ((t - 0 + 12) mod 12) = Some syllable
    ∧ in_dict (note_for_idx note) NOTE_TO_INT = true
    ∧ note ∈ NOTES_SHARP ++ NOTES_FLAT_ONLY.
Proof.
  intros Hidx.
  destruct (NOTES_SHARP_lookup idx_sharp Hidx) as (note_sharp & Hn & _ & Hi).
  pose proof (transposed_idx_range idx_sharp transposition) as Ht.
  destruct (render_pitch_class _ is_minor_chord notation_type Ht)
    as (tsharp & fl & syl & Hts & Hfl & Hnote & Hsyl & Halpha & Hin & Hmem).
  exists note_sharp, tsharp, fl,
    (note_for_solfege tsharp is_minor_chord notation_type), syl.
  assert (transposed_note_for_solfege transposition is_minor_chord
            notation_type note_sharp
          = Ret (note_for_solfege tsharp is_minor_chord notation_type)) as Htn.
  { unfold transposed_note_for_solfege. rewrite Hi. simpl.
    replace (transposed_idx idx_sharp transposition)
      with (Z.of_nat (Z.to_nat (transposed_idx idx_sharp transposition))) by lia.
    by rewrite (getitem_in_range _ _ _ Hts). }
  cbv zeta. split; [done|]. split; [done|]. split; [done|]. split; [done|].
  split; [done|]. split.
  { unfold solfege_note. by rewrite Htn. }
  split; [done|]. split; [done|]. by apply bool_decide_eq_true in Hmem.
Qed.

(** ** The counting phase *)

Section Counting.
Context (U : unicode).

Lemma get_pentatonic_scale_notes_total (chord : list N) :
  ∃ scale_data, get_pentatonic_scale_notes U chord = Ret scale_data.
Proof.
  destruct (get_root_and_type_spec U chord) as (m & cand & _ & Hparse).
  destruct (find_root cand (length cand)) as [root|].
  - destruct (get_pentatonic_scale_notes_parsed U _ _ _ _ Hparse)
      as (k & _ & Hk & ->).
    destruct (scale_notes_sharp_total k m Hk) as (notes & -> & _). eauto.
  - unfold get_pentatonic_scale_notes. rewrite Hparse. eauto.
Qed.

Lemma get_pentatonic_scale_notes_Some (chord : list N) scale
    (is_minor_chord : bool) (notation_type : notation) :
  get_pentatonic_scale_notes U chord
  = Ret (Some (scale, is_minor_chord, notation_type)) →
  length scale = 5%nat ∧ scale ⊆ NOTES_SHARP.
Proof.
  destruct (get_root_and_type_spec U chord) as (m & cand & _ & Hparse).
  destruct (find_root cand (length cand)) as [root|].
  - destruct (get_pentatonic_scale_notes_parsed U _ _ _ _ Hparse)
      as (k & _ & Hk & ->).
    destruct (scale_notes_sharp_total k m Hk)
      as (notes & -> & Hlen & _ & Hsub & _).
    by intros [= <- _ _].
  - unfold get_pentatonic_scale_notes. by rewrite Hparse.
Qed.

Lemma solfege_note_total (transposition : Z) (is_minor_chord : bool)
    (notation_type : notation) (note_sharp : list N) :
  note_sharp ∈ NOTES_SHARP →
  ∃ note syllable,
    transposed_note_for_solfege transposition is_minor_chord notation_type
      note_sharp = Ret note
    ∧ note ∈ NOTES_SHARP ++ NOTES_FLAT_ONLY
    ∧ in_dict (note_for_idx note) NOTE_TO_INT = true
    ∧ solfege_note transposition is_minor_chord notation_type note_sharp
      = Ret syllable
    ∧ syllable ∈ SOLFEGE_SHARP ++ SOLFEGE_FLAT.
Proof.
  intros (idx & _ & Hidx & Hn)%NOTES_SHARP_index.
  destruct (scale_note_rendered transposition idx is_minor_chord
              notation_type Hidx)
    as (note_sharp' & tsharp & fl & note & syl
        & Hn' & _ & _ & Htn & _ & Hsyl & Halpha & Hin & Hmem).
  rewrite Hn in Hn'. injection Hn' as <-.
  exists note, syl. repeat split; try done.
  apply list_elem_of_lookup_2 in Halpha. rewrite elem_of_app.
  destruct (decide (note ∈ NOTES_FLAT_ONLY)); auto.
Qed.

Lemma chord_solfege_notes_total (transposition : Z) (chord : list N) :
  ∃ notes, chord_solfege_notes U transposition chord = Ret notes.
Proof.
  unfold chord_solfege_notes.
  destruct (get_pentatonic_scale_notes_total chord) as ([[[scale m] nt]|] & Hs);
    rewrite Hs; simpl; [|eauto].
  apply get_pentatonic_scale_notes_Some in Hs as [_ Hsub].
  destruct (for_each_Forall (solfege_note transposition m nt) (λ _, True) scale)
    as (ys & -> & _); [|eauto].
  intros x Hx. destruct (solfege_note_total transposition m nt x (Hsub x Hx))
    as (_ & syl & _ & _ & _ & -> & _). eauto.
Qed.

Lemma all_solfege_notes_for_counting_total (transposition : Z)
    (all_measures_data : list (list (list N))) :
  ∃ all_solfege,
    all_solfege_notes_for_counting U transposition all_measures_data
    = Ret all_solfege.
Proof.
  unfold all_solfege_notes_for_counting.
  match goal with |- context [for_each ?f all_measures_data] =>
    destruct (for_each_Forall f (λ _, True) all_measures_data)
      as (ys & -> & _) end; [|simpl; eauto].
  intros measure _.
  destruct (for_each_Forall (chord_solfege_notes U transposition)
              (λ _, True) measure) as (ys & -> & _); [|simpl; eauto].
  intros chord _. destruct (chord_solfege_notes_total transposition chord)
    as (notes & ->). eauto.
Qed.
End Counting.

(** C4: every note of a chord's scale, transposed, is handed to the
    renderer under the spelling the chord's notation style asks for, and
    rendered from the alphabet of that spelling.  For a chord the
    generator resolves to a scale, a minor flag and a notation style, the
    loop of lines 289-310 returns one syllable for each note of the scale,
    in order.  With t the transposed pitch class of the note, the note
    handed to the renderer is the flat spelling of t when the chord was
    written with a flat, or with a natural root and is minor, and the
    sharp spelling of t otherwise; in the minor case D#, G# and A# become
    Eb, Ab and Bb.  The syllable is the entry at index
    (t - reference + 12) mod 12, the reference being the index 0 of "C",
    of the flat alphabet when that note is one of the five flat spellings
    and of the sharp alphabet otherwise. *)
Theorem spelling_and_syllable (U : unicode) (transposition : Z)
    (chord_name_raw : list N) (scale_notes_sharp : list (list N))
    (is_minor_chord : bool) (notation_type : notation) :
  get_pentatonic_scale_notes U chord_name_raw
  = Ret (Some (scale_notes_sharp, is_minor_chord, notation_type)) →
  ∃ syllables,
    chord_solfege_notes U transposition chord_name_raw = Ret syllables
    ∧ length syllables = 5%nat
    ∧ Forall2
        (λ note_sharp syllable,
           ∃ idx_sharp transposed_note_sharp flat_spelling note,
             let t := transposed_idx idx_sharp transposition in
             NOTE_TO_INT !! note_sharp = Some idx_sharp
             ∧ NOTES_SHARP !! Z.to_nat idx_sharp = Some note_sharp
             ∧ NOTES_SHARP !! Z.to_nat t = Some transposed_note_sharp
             ∧ NOTES_FLAT !! Z.to_nat t = Some flat_spelling
             ∧ transposed_note_for_solfege transposition is_minor_chord
                 notation_type note_sharp = Ret note
             ∧ (prefers_flat notation_type is_minor_chord → note = flat_spelling)
             ∧ (¬ prefers_flat notation_type is_minor_chord →
                note = transposed_note_sharp)
             ∧ solfege_note transposition is_minor_chord notation_type note_sharp
               = Ret syllable
             ∧ (note ∈ NOTES_FLAT_ONLY →
                SOLFEGE_FLAT !! Z.to_nat ((t - 0 + 12) mod 12) = Some syllable)
             ∧ (note ∉ NOTES_FLAT_ONLY →
                SOLFEGE_SHARP !! Z.to_nat ((t - 0 + 12) mod 12) = Some syllable))
        scale_notes_sharp syllables
    ∧ (∀ nt, prefers_flat nt true →
         note_for_solfege (lit "D#") true nt = lit "Eb"
         ∧ note_for_solfege (lit "G#") true nt = lit "Ab"
         ∧ note_for_solfege (lit "A#") true nt = lit "Bb")
    ∧ NOTE_TO_INT !! lit "C" = Some 0.
Proof.
  intros Hscale.
  destruct (get_pentatonic_scale_notes_Some U _ _ _ _ Hscale) as [Hlen Hsub].
  unfold chord_solfege_notes. rewrite Hscale. cbn [mbind res_bind bind].
  match goal with |- ∃ _, _ ∧ _ ∧ Forall2 ?R _ _ ∧ _ =>
    destruct (for_each_Forall2
                (solfege_note transposition is_minor_chord notation_type)
                R scale_notes_sharp) as (syllables & -> & Hall) end.
  { intros note_sharp Hin.
    destruct (NOTES_SHARP_index note_sharp (Hsub _ Hin)) as (idx & Hget & Hidx & Hn).
    destruct (scale_note_rendered transposition idx is_minor_chord
                notation_type Hidx)
      as (note_sharp' & tsharp & fl & note & syl
          & Hn' & Hts & Hfl & Htn & Hnote & Hsyl & Halpha & _ & _).
    cbv zeta in *. rewrite Hn in Hn'. injection Hn' as <-.
    exists syl. split; [done|]. exists idx, tsharp, fl, note.
    split.
    { unfold dict_getitem in Hget.
      destruct (NOTE_TO_INT !! note_sharp) as [i|]; [|done]. by injection Hget as ->. }
    split; [done|]. split; [done|]. split; [done|]. split; [done|].
    split; [intros ?; by rewrite decide_True in Hnote|].
    split; [intros ?; by rewrite decide_False in Hnote|].
    split; [done|].
    split; intros ?; [by rewrite decide_True in Halpha
                     | by rewrite decide_False in Halpha]. }
  exists syllables. split; [done|].
  split; [by rewrite <- (Forall2_length _ _ _ Hall)|].
  split; [done|]. split; [|by vm_compute].
  intros nt Hnt. destruct nt; [by destruct Hnt as [?|[? _]] |..];
    repeat split; by vm_compute.
Qed.

Lemma spelling_and_syllable_witness :
  get_pentatonic_scale_notes ascii_only (lit "Cm")
  = Ret (Some ([lit "C"; lit "D#"; lit "F"; lit "G"; lit "A#"], true, natural))
  ∧ ∃ syllables,
      chord_solfege_notes ascii_only 2 (lit "Cm") = Ret syllables
      ∧ length syllables = 5%nat.
Proof.
  assert (get_pentatonic_scale_notes ascii_only (lit "Cm")
          = Ret (Some ([lit "C"; lit "D#"; lit "F"; lit "G"; lit "A#"], true, natural)))
    as H by (by vm_compute).
  split; [exact H|].
  destruct (spelling_and_syllable ascii_only 2 _ _ _ _ H)
    as (syllables & Hsyllables & Hlen & _).
  exists syllables. split; [exact Hsyllables | exact Hlen].
Defined.

Lemma NOTES_FLAT_ONLY_equivalent (note : list N) :
  note ∈ NOTES_FLAT_ONLY →
  ∃ sharp_spelling, ENHARMONIC_EQUIVALENTS !! note = Some sharp_spelling
                    ∧ sharp_spelling ∈ NOTES_SHARP.
Proof.
  intros H. elem_cases H; eexists; (split; [by vm_compute|]);
    apply (bool_decide_unpack _); by vm_compute.
Qed.

(** C8: the renderer returns the note it was given when the note, after
    the equivalence map, has no entry in [NOTE_TO_INT].  No note the
    analysis hands to it takes that branch: each is a spelling of
    [NOTES_SHARP] or one of the five flat spellings, which the equivalence
    map sends to a spelling of [NOTES_SHARP], so the lookup succeeds and a
    syllable of one of the two alphabets is returned; the counting phase
    as a whole never raises. *)
Theorem solfege_fallback_unreachable (U : unicode) :
  (∀ note base,
     in_dict (note_for_idx note) NOTE_TO_INT = false →
     get_solfege_name note base = Ret note)
  ∧ get_solfege_name (lit "H") (lit "C") = Ret (lit "H")
  ∧ (∀ chord transposition scale is_minor_chord notation_type note_sharp,
       get_pentatonic_scale_notes U chord
       = Ret (Some (scale, is_minor_chord, notation_type)) →
       note_sharp ∈ scale →
       ∃ note syllable,
         transposed_note_for_solfege transposition is_minor_chord
           notation_type note_sharp = Ret note
         ∧ (note ∈ NOTES_SHARP
            ∨ (note ∈ NOTES_FLAT_ONLY
               ∧ ∃ sharp_spelling,
                   ENHARMONIC_EQUIVALENTS !! note = Some sharp_spelling
                   ∧ sharp_spelling ∈ NOTES_SHARP))
         ∧ in_dict (note_for_idx note) NOTE_TO_INT = true
         ∧ solfege_note transposition is_minor_chord notation_type note_sharp
           = Ret syllable
         ∧ syllable ∈ SOLFEGE_SHARP ++ SOLFEGE_FLAT)
  ∧ (∀ transposition all_measures_data,
       ∃ all_solfege,
         all_solfege_notes_for_counting U transposition all_measures_data
         = Ret all_solfege).
Proof.
  split.
  { intros note base H. unfold get_solfege_name. by rewrite H. }
  split; [by vm_compute|]. split; [|apply all_solfege_notes_for_counting_total].
  intros chord transposition scale m nt note_sharp [_ Hsub]%get_pentatonic_scale_notes_Some Hin.
  destruct (solfege_note_total transposition m nt note_sharp (Hsub _ Hin))
    as (note & syl & Htn & Hmem & Hdict & Hsyl & Halpha).
  exists note, syl. repeat split; try done.
  apply elem_of_app in Hmem as [?|Hflat]; [by left|].
  right. split; [done|]. by apply NOTES_FLAT_ONLY_equivalent.
Qed.

Lemma solfege_fallback_unreachable_witness :
  in_dict (note_for_idx (lit "Hb")) NOTE_TO_INT = false
  ∧ get_solfege_name (lit "Hb") (lit "C") = Ret (lit "Hb").
Proof.
  assert (in_dict (note_for_idx (lit "Hb")) NOTE_TO_INT = false) as H
    by (by vm_compute).
  split; [exact H|].
  exact (proj1 (solfege_fallback_unreachable ascii_only) _ _ H).
Defined.

(** ** The frequency ranker *)

Section Ranking.
Context {A : Type} `{EqDecision A}.
Local Open Scope nat_scope.

Lemma occurrences_app (x : A) l1 l2 :
  occurrences x (l1 ++ l2) = occurrences x l1 + occurrences x l2.
Proof. induction l1 as [|y l1 IH]; simpl; [done|]. rewrite IH. lia. Qed.

Lemma occurrences_not_elem (x : A) l : x ∉ l → occurrences x l = 0.
Proof.
  induction l as [|y l IH]; simpl; [done|].
  intros [Hne Hl]%not_elem_of_cons.
  rewrite bool_decide_eq_false_2 by congruence. by rewrite IH.
Qed.

Lemma occurrences_elem (x : A) l : x ∈ l → 0 < occurrences x l.
Proof.
  induction l as [|y l IH]; simpl; [by intros ?%elem_of_nil|].
  intros [->|H]%elem_of_cons.
  - rewrite bool_decide_eq_true_2 by done. lia.
  - apply IH in H. lia.
Qed.

Lemma first_position_elem (x : A) l : x ∈ l → first_position x l < length l.
Proof.
  induction l as [|y l IH]; simpl; [by intros ?%elem_of_nil|].
  intros Hx. case_bool_decide as Hy; [lia|].
  apply elem_of_cons in Hx as [->|Hx]; [done|]. apply IH in Hx. lia.
Qed.

Lemma first_position_app_l (x : A) l1 l2 :
  x ∈ l1 → first_position x (l1 ++ l2) = first_position x l1.
Proof.
  induction l1 as [|y l1 IH]; simpl; [by intros ?%elem_of_nil|].
  intros Hx. case_bool_decide as Hy; [done|].
  apply elem_of_cons in Hx as [->|Hx]; [done|]. by rewrite IH.
Qed.

Lemma first_position_app_r (x : A) l1 l2 :
  x ∉ l1 → first_position x (l1 ++ l2) = length l1 + first_position x l2.
Proof.
  induction l1 as [|y l1 IH]; simpl; [done|].
  intros [Hne Hl]%not_elem_of_cons.
  rewrite bool_decide_eq_false_2 by congruence. by rewrite IH.
Qed.

Lemma first_seen_snoc (l : list A) x :
  first_seen (l ++ [x])
  = if decide (x ∈ first_seen l) then first_seen l else first_seen l ++ [x].
Proof. unfold first_seen. by rewrite foldl_app. Qed.

Lemma first_seen_elem (l : list A) x : x ∈ first_seen l ↔ x ∈ l.
Proof.
  induction l as [|y l IH] using rev_ind; [done|].
  rewrite first_seen_snoc, elem_of_app, list_elem_of_singleton.
  destruct (decide (y ∈ first_seen l)) as [Hy|Hy].
  - rewrite IH. split; [auto|]. intros [?| ->]; [done | by apply IH].
  - by rewrite elem_of_app, list_elem_of_singleton, IH.
Qed.

Lemma first_seen_NoDup (l : list A) : NoDup (first_seen l).
Proof.
  induction l as [|y l IH] using rev_ind; [constructor|].
  rewrite first_seen_snoc. destruct (decide (y ∈ first_seen l)); [done|].
  apply NoDup_app. split; [done|]. split; [|apply NoDup_singleton].
  by intros x Hx ->%list_elem_of_singleton.
Qed.

Lemma StronglySorted_weaken (R R' : relation A) (l : list A) :
  (∀ a b, a ∈ l → b ∈ l → R a b → R' a b) →
  StronglySorted R l → StronglySorted R' l.
Proof.
  induction l as [|x l IH]; intros HR Hs; [constructor|].
  apply StronglySorted_cons in Hs as [Hx Hs]. apply StronglySorted_cons.
  split.
  - rewrite Forall_forall in *. intros y Hy.
    apply HR; [by left | by right | by apply Hx].
  - apply IH; [|done]. intros a b Ha Hb. apply HR; by right.
Qed.

Lemma first_seen_sorted (l : list A) :
  StronglySorted (λ a b, first_position a l < first_position b l)
                 (first_seen l).
Proof.
  induction l as [|y l IH] using rev_ind; [constructor|].
  assert (StronglySorted
            (λ a b, first_position a (l ++ [y]) < first_position b (l ++ [y]))
            (first_seen l)) as IH'.
  { revert IH. apply StronglySorted_weaken.
    intros a b Ha Hb.
    apply (proj1 (first_seen_elem l a)) in Ha.
    apply (proj1 (first_seen_elem l b)) in Hb.
    by rewrite !first_position_app_l by done. }
  rewrite first_seen_snoc. destruct (decide (y ∈ first_seen l)) as [Hy|Hy];
    [done|].
  apply StronglySorted_app. split; [|split; [done | repeat constructor]].
  intros a b Ha ->%list_elem_of_singleton.
  apply (proj1 (first_seen_elem l a)) in Ha.
  rewrite first_seen_elem in Hy.
  rewrite first_position_app_l, first_position_app_r by done.
  apply first_position_elem in Ha. lia.
Qed.

(** Counting one more element, on a tally of [l] over distinct keys. *)
Lemma counter_add_fmap (x : A) l ks :
  NoDup ks → (x ∉ ks → occurrences x l = 0) →
  counter_add x ((λ y, (y, occurrences y l)) <$> ks)
  = (λ y, (y, occurrences y (l ++ [x])))
      <$> (if decide (x ∈ ks) then ks else ks ++ [x]).
Proof.
  induction ks as [|k ks IH]; intros Hdup Hx.
  - rewrite decide_False by apply not_elem_of_nil. simpl.
    rewrite occurrences_app, Hx by apply not_elem_of_nil. simpl.
    by rewrite bool_decide_eq_true_2.
  - apply NoDup_cons in Hdup as [Hk Hdup]. csimpl.
    case_bool_decide as Hkx.
    + subst k. rewrite decide_True by (by left). csimpl. f_equal.
      * rewrite occurrences_app. simpl.
        rewrite bool_decide_eq_true_2 by done. f_equal. lia.
      * apply list_fmap_ext. intros i y Hy. f_equal.
        rewrite occurrences_app. simpl.
        rewrite bool_decide_eq_false_2; [lia|]. intros <-.
        apply Hk. by eapply list_elem_of_lookup_2.
    + assert (occurrences k (l ++ [x]) = occurrences k l) as Hocc.
      { rewrite occurrences_app. simpl.
        rewrite bool_decide_eq_false_2 by congruence. lia. }
      rewrite IH; [|done|].
      * destruct (decide (x ∈ ks)) as [Hin|Hin].
        -- rewrite decide_True by (by right). csimpl. by rewrite Hocc.
        -- rewrite decide_False; [csimpl; by rewrite Hocc|].
           rewrite not_elem_of_cons. split; [congruence | done].
      * intros Hin. apply Hx. rewrite not_elem_of_cons.
        split; [congruence | done].
Qed.

(** The tally [Counter] builds: the distinct elements in the order they
    are first encountered, each with the number of its occurrences. *)
Lemma Counter_first_seen (l : list A) :
  Counter l = (λ y, (y, occurrences y l)) <$> first_seen l.
Proof.
  induction l as [|x l IH] using rev_ind; [done|].
  unfold Counter in *. rewrite foldl_app. simpl. rewrite IH.
  rewrite counter_add_fmap, <- first_seen_snoc; [done | apply first_seen_NoDup |].
  rewrite first_seen_elem. apply occurrences_not_elem.
Qed.

Lemma insert_by_count_perm (x : A * nat) c : insert_by_count x c ≡ₚ x :: c.
Proof.
  induction c as [|y c IH]; simpl; [done|].
  destruct (x.2 <? y.2); [|done]. rewrite IH. apply Permutation_swap.
Qed.

Lemma sorted_by_count_perm (c : list (A * nat)) : sorted_by_count c ≡ₚ c.
Proof.
  induction c as [|x c IH]; simpl; [done|].
  rewrite insert_by_count_perm. by f_equiv.
Qed.

Lemma insert_by_count_sorted (l : list A) (x : A * nat) c :
  StronglySorted (ranks_before l) c →
  Forall (λ y, first_position x.1 l < first_position y.1 l) c →
  StronglySorted (ranks_before l) (insert_by_count x c).
Proof.
  induction c as [|y c IH]; intros Hs Hpos; simpl; [repeat constructor|].
  apply StronglySorted_cons in Hs as [Hy Hs].
  apply Forall_cons in Hpos as [Hxy Hpos].
  destruct (Nat.ltb_spec x.2 y.2) as [Hlt|Hge].
  - apply StronglySorted_cons. split; [|by apply IH].
    rewrite insert_by_count_perm. constructor; [by left | done].
  - apply StronglySorted_cons. split; [|by apply StronglySorted_cons].
    constructor; [unfold ranks_before; lia|].
    rewrite Forall_forall in *. intros z Hz.
    specialize (Hy z Hz). specialize (Hpos z Hz).
    unfold ranks_before in *. lia.
Qed.

(** The sort is stable: items listed in the order of first encounter
    come out ranked by count, ties in that order. *)
Lemma sorted_by_count_sorted (l : list A) (c : list (A * nat)) :
  StronglySorted (λ a b, first_position a.1 l < first_position b.1 l) c →
  StronglySorted (ranks_before l) (sorted_by_count c).
Proof.
  induction c as [|x c IH]; intros Hs; simpl; [constructor|].
  apply StronglySorted_cons in Hs as [Hx Hs].
  apply insert_by_count_sorted; [by apply IH|].
  by rewrite sorted_by_count_perm.
Qed.

Lemma Counter_ranked (l : list A) :
  StronglySorted (ranks_before l) (sorted_by_count (Counter l)).
Proof.
  apply sorted_by_count_sorted. rewrite Counter_first_seen.
  eapply StronglySorted_fmap; [|apply first_seen_sorted]. done.
Qed.

Lemma elem_of_Counter (l : list A) a :
  a ∈ Counter l ↔ a.1 ∈ l ∧ a.2 = occurrences a.1 l.
Proof.
  rewrite Counter_first_seen, list_elem_of_fmap. split.
  - intros (y & -> & Hy). by apply (proj1 (first_seen_elem l y)) in Hy.
  - intros [Ha Hn]. exists a.1. rewrite first_seen_elem.
    split; [|done]. destruct a; simpl in *; congruence.
Qed.

Lemma Counter_keys_NoDup (l : list A) : NoDup (Counter l).*1.
Proof.
  rewrite Counter_first_seen, <- list_fmap_compose.
  rewrite (list_fmap_ext _ id (first_seen l)) by done.
  rewrite list_fmap_id. apply first_seen_NoDup.
Qed.

(** The ranking [most_common] returns for the tally of [l]. *)
Lemma most_common_Counter n (l : list A) :
  let top := most_common n (Counter l) in
  length top ≤ n
  ∧ NoDup top.*1
  ∧ (∀ x k, (x, k) ∈ top → x ∈ l ∧ k = occurrences x l ∧ 0 < k)
  ∧ (∀ i j a b, i < j → top !! i = Some a → top !! j = Some b →
                 ranks_before l a b)
  ∧ (∀ x, x ∈ l → x ∉ top.*1 →
          length top = n
          ∧ ∀ a, a ∈ top → ranks_before l a (x, occurrences x l)).
Proof.
  cbv zeta. unfold most_common.
  pose proof (Counter_ranked l) as Hsorted.
  pose proof (sorted_by_count_perm (Counter l)) as Hperm.
  set (ranked := sorted_by_count (Counter l)) in *.
  split; [rewrite length_take; lia|]. split.
  { rewrite fmap_take. eapply sublist_NoDup; [|apply sublist_take].
    rewrite Hperm. apply Counter_keys_NoDup. }
  split.
  { intros x k Hin%subseteq_take. rewrite Hperm in Hin.
    apply elem_of_Counter in Hin as [Hx Hk]. simpl in *.
    split; [done|]. split; [done|]. rewrite Hk. by apply occurrences_elem. }
  split.
  { intros i j a b Hij Ha Hb.
    apply lookup_take_Some in Ha as [Ha _].
    apply lookup_take_Some in Hb as [Hb _].
    rewrite <- (take_drop_middle ranked j b Hb) in Hsorted.
    apply StronglySorted_app in Hsorted as (Hcross & _ & _).
    apply Hcross; [|by left]. apply elem_of_take. eauto. }
  intros x Hx Hnot.
  assert ((x, occurrences x l) ∈ ranked) as Hin.
  { rewrite Hperm. by apply elem_of_Counter. }
  rewrite <- (take_drop n ranked) in Hin, Hsorted.
  apply elem_of_app in Hin as [Hin|Hin].
  { destruct Hnot. apply list_elem_of_fmap. by exists (x, occurrences x l). }
  split.
  - rewrite length_take. apply list_elem_of_lookup in Hin as [i Hi].
    rewrite lookup_drop in Hi. apply lookup_lt_Some in Hi. lia.
  - intros a Ha. by eapply StronglySorted_app_1_elem_of.
Qed.
End Ranking.

Lemma run_analysis_gui_Analysed (U : unicode) (f : form) data all_solfege top :
  run_analysis_gui U f = Ret (Analysed data all_solfege top) →
  top = top_3_notes_info all_solfege
  ∧ ∃ transposition,
      get_transposition_semitones U (strip U (key_var f)) = Some transposition
      ∧ all_solfege_notes_for_counting U transposition data = Ret all_solfege.
Proof.
  unfold run_analysis_gui. case_bool_decide; [done|].
  destruct (get_transposition_semitones U (strip U (key_var f)))
    as [transposition|]; [|done].
  destruct (measure_count f) as [count|]; [|done].
  match goal with |- context [negb ?b] => destruct b end; [|done]. simpl.
  intros (all' & Hall & [= <- <- <-])%bind_Ret. eauto.
Qed.

(** C7: the ranking computed from the syllables collected over a
    progression has at most three (syllable, count) items, each a distinct
    syllable with the number of its occurrences.  The items come in
    descending order of count, and of two items with the same count the
    one whose syllable was encountered first comes first; every syllable
    left out ranks after all three in that same order. *)
Theorem top_3_ranking (all_solfege : list (list N)) :
  let top := top_3_notes_info all_solfege in
  (length top ≤ 3)%nat
  ∧ NoDup top.*1
  ∧ (∀ syllable k,
       (syllable, k) ∈ top →
       syllable ∈ all_solfege ∧ k = occurrences syllable all_solfege ∧ (0 < k)%nat)
  ∧ (∀ (i j : nat) a b,
       (i < j)%nat → top !! i = Some a → top !! j = Some b →
       ranks_before all_solfege a b)
  ∧ (∀ syllable,
       syllable ∈ all_solfege → syllable ∉ top.*1 →
       length top = 3%nat
       ∧ ∀ a, a ∈ top →
              ranks_before all_solfege a (syllable, occurrences syllable all_solfege))
  ∧ (∀ U f data top',
       run_analysis_gui U f = Ret (Analysed data all_solfege top') → top' = top)
  ∧ top_3_notes_info
      [lit "ド"; lit "レ"; lit "ミ"; lit "レ"; lit "ソ"; lit "ソ"; lit "ミ"; lit "ラ"]
    = [(lit "レ", 2%nat); (lit "ミ", 2%nat); (lit "ソ", 2%nat)].
Proof.
  cbv zeta. unfold top_3_notes_info.
  destruct (most_common_Counter 3 all_solfege) as (Hlen & Hdup & Hcount & Hord & Htop).
  split; [done|]. split; [done|]. split; [done|]. split; [done|].
  split; [done|]. split; [|by vm_compute].
  intros U f data top' [-> _]%run_analysis_gui_Analysed. done.
Qed.

Lemma top_3_ranking_witness :
  ranks_before [lit "ド"; lit "レ"; lit "レ"; lit "ド"]
               (lit "ド", 2%nat) (lit "レ", 2%nat).
Proof.
  pose proof (top_3_ranking [lit "ド"; lit "レ"; lit "レ"; lit "ド"])
    as (_ & _ & _ & Hord & _).
  apply (Hord 0%nat 1%nat); [lia | by vm_compute | by vm_compute].
Defined.

(** * Further properties *)

(** ** More on the chord parser *)

Lemma spelling_shape (r : list N) :
  r ∈ ROOT_SPELLINGS →
  (length r ≤ 2)%nat
  ∧ (ch_flat ∉ r)
  ∧ r !! 1%nat ≠ Some ch_m
  ∧ ∃ c, r !! 0%nat = Some c ∧ [c] ∈ NOTES_SHARP.
Proof.
  intros H. unfold ROOT_SPELLINGS in H. apply elem_of_app in H as [H|H];
    elem_cases H; (split; [vm_compute; lia|]);
    (split; [apply (bool_decide_unpack _); by vm_compute|]);
    (split; [by vm_compute|]); eexists; (split; [by vm_compute|]);
    apply (bool_decide_unpack _); by vm_compute.
Qed.

Lemma is_root_spelling_false (r : list N) :
  r ∉ ROOT_SPELLINGS → is_root_spelling r = false.
Proof.
  intros H. destruct (is_root_spelling r) eqn:Hs; [|done].
  by apply is_root_spelling_iff in Hs.
Qed.

(** Prefixes of more than two characters are never tried with success. *)
Lemma find_root_long (cand : list N) (n : nat) :
  (2 ≤ n ≤ length cand)%nat → find_root cand n = find_root cand 2.
Proof.
  induction n as [|n IH]; [lia|]. intros Hn.
  destruct (decide (n = 1%nat)) as [->|Hn1]; [done|].
  cbn [find_root]. rewrite slice_to_take, is_root_spelling_false; [apply IH; lia|].
  intros [Hlen _]%spelling_shape. rewrite length_take in Hlen. lia.
Qed.

Lemma find_root_first_two (cand : list N) :
  find_root cand (length cand) = root_of_first_two cand.
Proof.
  unfold root_of_first_two.
  destruct cand as [|c [|d cand]].
  - done.
  - cbn [length find_root]. rewrite slice_to_take. cbn [take].
    by destruct (is_root_spelling [c]).
  - rewrite find_root_long by (cbn [length]; lia).
    cbn [find_root]. by rewrite !slice_to_take.
Qed.

(** The root candidate and the chord symbol resolve to the same root. *)
Lemma root_of_first_two_candidate (U : unicode) (chord cand : list N) m :
  minor_marker U chord = Ret (m, cand) →
  root_of_first_two cand = root_of_first_two chord.
Proof.
  intros Hmm.
  destruct (minor_marker_spec U chord)
    as [[_ H] | (i & Hi & [[Hrule H] | [_ H]])];
    rewrite Hmm in H; injection H as -> ->; [done| |done].
  destruct Hrule as [Hpos _]. destruct Hi as [Hi _].
  unfold root_of_first_two. rewrite !take_take.
  destruct (decide (i = 1%nat)) as [->|Hne].
  - replace (2 `min` 1)%nat with 1%nat by lia.
    replace (1 `min` 1)%nat with 1%nat by lia.
    rewrite (is_root_spelling_false (take 2 chord)).
    + by destruct (is_root_spelling (take 1 chord)).
    + intros (_ & _ & Hm & _)%spelling_shape. apply Hm.
      by rewrite lookup_take_lt by lia.
  - replace (2 `min` i)%nat with 2%nat by lia.
    by replace (1 `min` i)%nat with 1%nat by lia.
Qed.

Lemma get_root_and_type_first_two (U : unicode) (chord : list N) :
  ∃ is_minor_chord,
    get_root_and_type U chord =
      Ret (match root_of_first_two chord with
           | Some root => Some (root, is_minor_chord, notation_of root)
           | None => None
           end).
Proof.
  destruct (get_root_and_type_spec U chord) as (m & cand & Hmm & ->).
  exists m. by rewrite find_root_first_two, (root_of_first_two_candidate U chord cand m).
Qed.

Lemma parsed_root_first_two (U : unicode) (chord root : list N) m nt :
  get_root_and_type U chord = Ret (Some (root, m, nt)) →
  root = (if is_root_spelling (take 2 chord) then take 2 chord else take 1 chord).
Proof.
  destruct (get_root_and_type_first_two U chord) as (m' & ->).
  unfold root_of_first_two.
  destruct (is_root_spelling (take 2 chord)); [by intros [= <- _ _]|].
  destruct (is_root_spelling (take 1 chord)); [by intros [= <- _ _] | done].
Qed.

(** X1: only the first two characters of a chord symbol decide its root.
    The parser fails exactly when the symbol is empty or does not begin
    with one of the letters C, D, E, F, G, A, B; otherwise the root is the
    first two characters when they are a spelling, and the first
    character alone when they are not, whatever follows. *)
Theorem root_decided_by_first_two (U : unicode) (chord : list N) :
  (get_root_and_type U chord = Ret None
   ↔ ∀ c, chord !! 0%nat = Some c → [c] ∉ NOTES_SHARP)
  ∧ (∀ root m nt,
       get_root_and_type U chord = Ret (Some (root, m, nt)) →
       root = (if is_root_spelling (take 2 chord)
               then take 2 chord else take 1 chord))
  ∧ (∀ chord',
       take 2 chord' = take 2 chord →
       ∀ root m nt,
         get_root_and_type U chord = Ret (Some (root, m, nt)) →
         ∃ m', get_root_and_type U chord' = Ret (Some (root, m', nt))).
Proof.
  assert (∀ s, root_of_first_two s = None
               ↔ ∀ c, s !! 0%nat = Some c → [c] ∉ NOTES_SHARP) as Hnone.
  { intros s. unfold root_of_first_two. split.
    - destruct (is_root_spelling (take 2 s)) eqn:H2; [done|].
      destruct (is_root_spelling (take 1 s)) eqn:H1; [done|].
      intros _ c Hc Hin. destruct s as [|c' s]; [done|].
      injection Hc as ->. change (take 1 (c :: s)) with [c] in H1.
      assert (is_root_spelling [c] = true) as Hs; [|congruence].
      apply is_root_spelling_iff. unfold ROOT_SPELLINGS.
      rewrite elem_of_app. by left.
    - intros Hs.
      assert (∀ k, (1 ≤ k)%nat → take k s ∉ ROOT_SPELLINGS) as Hno.
      { intros k Hk (_ & _ & _ & c & Hc & Hin)%spelling_shape.
        rewrite lookup_take_lt in Hc by lia. by apply (Hs c). }
      by rewrite !is_root_spelling_false by (apply Hno; lia). }
  assert (∀ s root, root_of_first_two s = Some root →
            root = if is_root_spelling (take 2 s) then take 2 s else take 1 s)
    as Hsome.
  { intros s root. unfold root_of_first_two.
    destruct (is_root_spelling (take 2 s)); [congruence|].
    destruct (is_root_spelling (take 1 s)); congruence. }
  destruct (get_root_and_type_first_two U chord) as (m & Hparse).
  split; [|split].
  - rewrite Hparse, <- Hnone.
    destruct (root_of_first_two chord); split; done || intros [=].
  - intros root m' nt. rewrite Hparse.
    destruct (root_of_first_two chord) as [r|] eqn:Hr; [|done].
    intros [= <- _ _]. by apply Hsome.
  - intros chord' Htake root m' nt. rewrite Hparse.
    destruct (root_of_first_two chord) as [r|] eqn:Hr; [|done].
    intros [= <- _ <-].
    destruct (get_root_and_type_first_two U chord') as (m'' & ->).
    assert (root_of_first_two chord' = Some r) as ->; [|eauto].
    rewrite <- Hr. unfold root_of_first_two.
    assert (take 1 chord' = take 1 chord) as H1.
    { assert (take 1 (take 2 chord') = take 1 (take 2 chord)) as H
        by (by rewrite Htake).
      by rewrite !take_take in H. }
    by rewrite Htake, H1.
Qed.

Lemma root_decided_by_first_two_witness :
  get_root_and_type ascii_only (lit "Ebmaj7") = Ret (Some (lit "Eb", false, flat))
  ∧ ∃ m', get_root_and_type ascii_only (lit "Ebm") = Ret (Some (lit "Eb", m', flat)).
Proof.
  assert (get_root_and_type ascii_only (lit "Ebmaj7")
          = Ret (Some (lit "Eb", false, flat))) as H by (by vm_compute).
  split; [exact H|].
  exact (proj2 (proj2 (root_decided_by_first_two ascii_only (lit "Ebmaj7")))
           (lit "Ebm") eq_refl _ _ _ H).
Defined.

(** X2: the flat sign is never part of a root.  The notation of a parsed
    chord is flat exactly for the roots Db, Eb, Gb, Ab, Bb, sharp exactly
    for C#, D#, F#, G#, A#, and natural exactly for the roots of one
    letter; a chord written with the flat sign after its letter is read as
    the natural note of that letter. *)
Theorem flat_sign_never_in_root (U : unicode) (chord root : list N)
    (is_minor_chord : bool) (notation_type : notation) :
  get_root_and_type U chord = Ret (Some (root, is_minor_chord, notation_type)) →
  (ch_flat ∉ root)
  ∧ (notation_type = flat ↔ root ∈ NOTES_FLAT_ONLY)
  ∧ (notation_type = sharp
     ↔ root ∈ [lit "C#"; lit "D#"; lit "F#"; lit "G#"; lit "A#"])
  ∧ (notation_type = natural ↔ length root = 1%nat)
  ∧ (chord !! 1%nat = Some ch_flat →
     root = take 1 chord ∧ notation_type = natural).
Proof.
  intros Hparse.
  pose proof (get_root_and_type_Some U _ _ _ _ Hparse) as [Hroot ->].
  assert ((notation_of root = flat ↔ root ∈ NOTES_FLAT_ONLY)
          ∧ (notation_of root = sharp
             ↔ root ∈ [lit "C#"; lit "D#"; lit "F#"; lit "G#"; lit "A#"])
          ∧ (notation_of root = natural ↔ length root = 1%nat)) as Hnt.
  { clear Hparse. unfold ROOT_SPELLINGS in Hroot.
    apply elem_of_app in Hroot as [H|H]; elem_cases H;
      (split; [|split]);
      (split; [intros Hn; (by vm_compute in Hn)
                          || (apply (bool_decide_unpack _); by vm_compute)
              | intros Hn; (by vm_compute)
                           || (exfalso; revert Hn; apply (bool_decide_unpack _);
                               by vm_compute)
                           || (by vm_compute in Hn)]). }
  destruct Hnt as (Hflat & Hsharp & Hnat).
  pose proof (spelling_shape root Hroot) as (Hlen & Hnoflat & _ & c & Hc & _).
  split; [done|]. split; [done|]. split; [done|]. split; [done|].
  intros Hsecond.
  pose proof (parsed_root_first_two U _ _ _ _ Hparse) as Hr.
  rewrite is_root_spelling_false in Hr.
  - split; [done|]. apply Hnat. subst root.
    rewrite length_take in *. apply lookup_lt_Some in Hc.
    rewrite length_take in Hc. lia.
  - intros (_ & Hno & _)%spelling_shape. apply Hno.
    apply (list_elem_of_lookup_2 _ 1%nat). by rewrite lookup_take_lt by lia.
Qed.

Lemma flat_sign_never_in_root_witness :
  get_root_and_type ascii_only (lit "B♭m") = Ret (Some (lit "B", true, natural))
  ∧ (ch_flat ∉ lit "B").
Proof.
  assert (get_root_and_type ascii_only (lit "B♭m")
          = Ret (Some (lit "B", true, natural))) as H by (by vm_compute).
  split; [exact H|].
  exact (proj1 (flat_sign_never_in_root ascii_only _ _ _ _ H)).
Defined.

(** X3: the generator fails only when the parser does, and never raises.
    For a parsed chord it returns five notes of [NOTES_SHARP], the first
    of them the sharp spelling of the root, with the flag and the notation
    the parser found; the early returns of lines 86-90 are never taken. *)
Theorem generator_fails_only_with_parser (U : unicode) (chord : list N) :
  (get_pentatonic_scale_notes U chord = Ret None
   ↔ get_root_and_type U chord = Ret None)
  ∧ (∃ scale_data, get_pentatonic_scale_notes U chord = Ret scale_data)
  ∧ (∀ root m nt,
       get_root_and_type U chord = Ret (Some (root, m, nt)) →
       ∃ scale,
         get_pentatonic_scale_notes U chord = Ret (Some (scale, m, nt))
         ∧ length scale = 5%nat ∧ scale ⊆ NOTES_SHARP
         ∧ head scale = root_for_calc root ∧ is_Some (head scale)).
Proof.
  assert (∀ root m nt,
       get_root_and_type U chord = Ret (Some (root, m, nt)) →
       ∃ scale,
         get_pentatonic_scale_notes U chord = Ret (Some (scale, m, nt))
         ∧ length scale = 5%nat ∧ scale ⊆ NOTES_SHARP
         ∧ head scale = root_for_calc root ∧ is_Some (head scale)) as Hsome.
  { intros root m nt Hparse.
    destruct (get_pentatonic_scale_notes_parsed U _ _ _ _ Hparse)
      as (k & Hpc & Hk & ->).
    destruct (scale_notes_sharp_total k m Hk)
      as (scale & -> & Hlen & _ & Hsub & Hhead).
    exists scale. split; [done|]. split; [done|]. split; [done|].
    rewrite Hhead. clear Hhead Hsub Hlen.
    apply get_root_and_type_Some in Hparse as [Hroot _].
    unfold ROOT_SPELLINGS in Hroot. apply elem_of_app in Hroot as [H|H];
      elem_cases H; vm_compute in Hpc; injection Hpc as <-;
      (split; [by vm_compute | by eexists]). }
  split; [|split; [apply get_pentatonic_scale_notes_total | done]].
  destruct (get_root_and_type_spec U chord) as (m & cand & _ & Hparse).
  destruct (find_root cand (length cand)) as [root|].
  - destruct (Hsome _ _ _ Hparse) as (scale & Hs & _).
    rewrite Hs, Hparse. split; intros [=].
  - unfold get_pentatonic_scale_notes. by rewrite Hparse.
Qed.

Lemma generator_fails_only_with_parser_witness :
  get_root_and_type ascii_only (lit "Gbm7") = Ret (Some (lit "Gb", true, flat))
  ∧ ∃ scale,
      get_pentatonic_scale_notes ascii_only (lit "Gbm7")
      = Ret (Some (scale, true, flat))
      ∧ head scale = Some (lit "F#").
Proof.
  assert (get_root_and_type ascii_only (lit "Gbm7")
          = Ret (Some (lit "Gb", true, flat))) as H by (by vm_compute).
  split; [exact H|].
  destruct (proj2 (proj2 (generator_fails_only_with_parser ascii_only _)) _ _ _ H)
    as (scale & Hs & _ & _ & Hhead & _).
  exists scale. split; [exact Hs | exact Hhead].
Defined.

(** X4: two chords whose roots are enharmonic spellings of each other,
    with the same minor flag, get the same scale notes; only the notation
    recorded with them differs. *)
Theorem enharmonic_roots_same_scale (U : unicode) (chord1 chord2 root1 root2 : list N)
    (is_minor_chord : bool) (nt1 nt2 : notation) :
  get_root_and_type U chord1 = Ret (Some (root1, is_minor_chord, nt1)) →
  get_root_and_type U chord2 = Ret (Some (root2, is_minor_chord, nt2)) →
  ENHARMONIC_EQUIVALENTS !! root1 = Some root2 →
  nt1 ≠ nt2
  ∧ ∃ scale,
      get_pentatonic_scale_notes U chord1 = Ret (Some (scale, is_minor_chord, nt1))
      ∧ get_pentatonic_scale_notes U chord2 = Ret (Some (scale, is_minor_chord, nt2)).
Proof.
  intros H1 H2 Heq.
  destruct (get_pentatonic_scale_notes_parsed U _ _ _ _ H1) as (k1 & Hk1 & Hr1 & ->).
  destruct (get_pentatonic_scale_notes_parsed U _ _ _ _ H2) as (k2 & Hk2 & _ & ->).
  apply get_root_and_type_Some in H1 as [_ ->].
  apply get_root_and_type_Some in H2 as [_ ->].
  assert (in_dict root1 ENHARMONIC_EQUIVALENTS = true) as Hin.
  { unfold in_dict. apply bool_decide_eq_true. eauto. }
  apply in_ENHARMONIC_EQUIVALENTS in Hin.
  assert (notation_of root1 ≠ notation_of root2 ∧ k1 = k2) as [Hne <-].
  { elem_cases Hin; vm_compute in Heq; injection Heq as <-;
      vm_compute in Hk1; vm_compute in Hk2; injection Hk1 as <-;
      injection Hk2 as <-; by vm_compute. }
  split; [done|].
  destruct (scale_notes_sharp_total k1 is_minor_chord Hr1) as (scale & -> & _).
  by exists scale.
Qed.

Lemma enharmonic_roots_same_scale_witness :
  ∃ scale,
    get_pentatonic_scale_notes ascii_only (lit "C#m7") = Ret (Some (scale, true, sharp))
    ∧ get_pentatonic_scale_notes ascii_only (lit "Dbm") = Ret (Some (scale, true, flat)).
Proof.
  assert (get_root_and_type ascii_only (lit "C#m7")
          = Ret (Some (lit "C#", true, sharp))) as H1 by (by vm_compute).
  assert (get_root_and_type ascii_only (lit "Dbm")
          = Ret (Some (lit "Db", true, flat))) as H2 by (by vm_compute).
  assert (ENHARMONIC_EQUIVALENTS !! lit "C#" = Some (lit "Db")) as He
    by (by vm_compute).
  exact (proj2 (enharmonic_roots_same_scale ascii_only _ _ _ _ _ _ _ H1 H2 He)).
Defined.

(** ** More on the generator and the transposer *)

Lemma for_each_ext {A B} (f g : A → res B) (l : list A) :
  (∀ x, f x = g x) → for_each f l = for_each g l.
Proof. intros H. induction l as [|x l IH]; simpl; [done|]. by rewrite H, IH. Qed.

Lemma for_each_bind {A B C} (f : A → res B) (g : B → res C) (l : list A) ys :
  for_each f l = Ret ys →
  for_each (λ x, y ← f x; g y) l = for_each g ys.
Proof.
  revert ys. induction l as [|x l IH]; simpl; intros ys.
  - by intros [= <-].
  - destruct (f x) as [y|e]; simpl; [|done].
    destruct (for_each f l) as [ys'|e]; simpl; [|done].
    intros [= <-]. simpl. by rewrite (IH ys').
Qed.

Lemma transposed_idx_mod (idx_sharp transposition : Z) :
  transposed_idx idx_sharp transposition
  = transposed_idx idx_sharp (transposition mod 12).
Proof. unfold transposed_idx. by rewrite Z.add_mod_idemp_r by lia. Qed.

Lemma transposed_scale_in_range (root_int o : Z) (is_minor_chord : bool) :
  0 ≤ root_int < 12 → 0 ≤ o < 12 →
  (scale ← scale_notes_sharp root_int is_minor_chord;
   for_each (transposed_note_sharp o) scale)
  = scale_notes_sharp (transposed_idx root_int o) is_minor_chord.
Proof.
  intros Hr Ho. pitch_cases root_int; pitch_cases o; destruct is_minor_chord;
    by vm_compute.
Qed.

Lemma transposed_scale (root_int transposition : Z) (is_minor_chord : bool) scale :
  0 ≤ root_int < 12 →
  scale_notes_sharp root_int is_minor_chord = Ret scale →
  for_each (transposed_note_sharp transposition) scale
  = scale_notes_sharp (transposed_idx root_int transposition) is_minor_chord.
Proof.
  intros Hr Hs.
  rewrite (for_each_ext _ (transposed_note_sharp (transposition mod 12))).
  - rewrite (transposed_idx_mod root_int).
    rewrite <- transposed_scale_in_range by (done || by apply Z.mod_pos_bound).
    by rewrite Hs.
  - intros note. unfold transposed_note_sharp.
    destruct (dict_getitem NOTE_TO_INT note); simpl; [|done].
    by rewrite transposed_idx_mod.
Qed.

(** X5: the minor pentatonic scale on a root has the notes of the major
    pentatonic scale three semitones above it, which starts on the second
    note of the minor scale and ends on its root. *)
Theorem relative_major_same_notes (root_int : Z) :
  0 ≤ root_int < 12 →
  ∃ a b c d e,
    scale_notes_sharp root_int true = Ret [a; b; c; d; e]
    ∧ scale_notes_sharp ((root_int + 3) mod 12) false = Ret [b; c; d; e; a].
Proof.
  intros H. pitch_cases root_int; do 5 eexists; split; by vm_compute.
Qed.

Lemma relative_major_same_notes_witness :
  0 ≤ 9 < 12
  ∧ ∃ a b c d e,
      scale_notes_sharp 9 true = Ret [a; b; c; d; e]
      ∧ scale_notes_sharp ((9 + 3) mod 12) false = Ret [b; c; d; e; a].
Proof.
  assert (0 ≤ 9 < 12) as H by lia. split; [exact H|].
  exact (relative_major_same_notes 9 H).
Defined.

(** X6: transposing every note of a scale gives the scale of the
    transposed root: for any offset, the notes of the scale on a root,
    each moved as lines 293-295 move it, are the notes the generator
    returns for the root moved by the same offset. *)
Theorem transposed_scale_is_scale_of_transposed_root
    (root_int transposition : Z) (is_minor_chord : bool) :
  0 ≤ root_int < 12 →
  ∃ scale,
    scale_notes_sharp root_int is_minor_chord = Ret scale
    ∧ for_each (transposed_note_sharp transposition) scale
      = scale_notes_sharp (transposed_idx root_int transposition) is_minor_chord.
Proof.
  intros Hr.
  destruct (scale_notes_sharp_total root_int is_minor_chord Hr) as (scale & Hs & _).
  exists scale. split; [done|]. by apply transposed_scale.
Qed.

Lemma transposed_scale_is_scale_of_transposed_root_witness :
  0 ≤ 0 < 12
  ∧ ∃ scale,
      scale_notes_sharp 0 true = Ret scale
      ∧ for_each (transposed_note_sharp 2) scale
        = scale_notes_sharp (transposed_idx 0 2) true.
Proof.
  assert (0 ≤ 0 < 12) as H by lia. split; [exact H|].
  exact (transposed_scale_is_scale_of_transposed_root 0 2 true H).
Defined.

(** ** More on the renderer *)

Lemma NOTE_TO_INT_lookup_range (note : list N) (i : Z) :
  NOTE_TO_INT !! note = Some i →
  0 ≤ i < 12 ∧ NOTES_SHARP !! Z.to_nat i = Some note.
Proof.
  intros H. assert (in_dict note NOTE_TO_INT = true) as Hin.
  { unfold in_dict. apply bool_decide_eq_true. eauto. }
  apply in_NOTE_TO_INT in Hin. revert H.
  elem_cases Hin; intros H; vm_compute in H; injection H as <-;
    (split; [lia | by vm_compute]).
Qed.

Lemma NOTE_TO_INT_lookup_None (note : list N) :
  note ∉ NOTES_SHARP → NOTE_TO_INT !! note = None.
Proof.
  intros H. destruct (NOTE_TO_INT !! note) as [i|] eqn:Hi; [|done].
  by apply NOTE_TO_INT_lookup_range in Hi as [_ ?%list_elem_of_lookup_2].
Qed.

Lemma base_index_range (base : list N) :
  0 ≤ dict_get NOTE_TO_INT base 0 < 12.
Proof.
  unfold dict_get. destruct (NOTE_TO_INT !! base) as [j|] eqn:Hj; simpl; [|lia].
  by apply NOTE_TO_INT_lookup_range in Hj as [? _].
Qed.

(** The renderer, with the lookup of "C" carried out. *)
Lemma get_solfege_name_unfold (note base : list N) :
  get_solfege_name note base =
    (if negb (in_dict (note_for_idx note) NOTE_TO_INT) then Ret note
     else
       note_index ← dict_getitem NOTE_TO_INT (note_for_idx note);
       let relative_index :=
         (note_index - dict_get NOTE_TO_INT base 0 + 12) mod 12 in
       if is_flat_notation note then getitem SOLFEGE_FLAT relative_index
       else getitem SOLFEGE_SHARP relative_index).
Proof.
  unfold get_solfege_name.
  destruct (negb (in_dict (note_for_idx note) NOTE_TO_INT)); [done|].
  destruct (dict_getitem NOTE_TO_INT (note_for_idx note)); simpl; [|done].
  replace (dict_getitem NOTE_TO_INT (lit "C")) with (Ret (A:=Z) 0)
    by (by vm_compute).
  done.
Qed.

Lemma get_solfege_name_spelling (note base : list N) :
  note ∈ ROOT_SPELLINGS →
  ∃ i syllable,
    pitch_class note = Some i
    ∧ get_solfege_name note base = Ret syllable
    ∧ alphabet_of note
        !! Z.to_nat ((i - dict_get NOTE_TO_INT base 0 + 12) mod 12)
      = Some syllable.
Proof.
  intros H. rewrite get_solfege_name_unfold.
  pose proof (base_index_range base) as Hj.
  generalize dependent (dict_get NOTE_TO_INT base 0). intros j Hj.
  unfold ROOT_SPELLINGS in H. apply elem_of_app in H as [H|H];
    elem_cases H; pitch_cases j; do 2 eexists;
    (split; [by vm_compute|]); (split; by vm_compute).
Qed.

Lemma get_solfege_name_unknown (note base : list N) :
  note ∉ ROOT_SPELLINGS → get_solfege_name note base = Ret note.
Proof.
  intros Hnote. rewrite get_solfege_name_unfold.
  assert (note_for_idx note ∉ NOTES_SHARP) as Hn.
  { unfold note_for_idx, dict_get.
    assert (note ∉ NOTES_SHARP) as Hsharp.
    { intros ?. apply Hnote. unfold ROOT_SPELLINGS. rewrite elem_of_app. auto. }
    destruct (is_flat_notation note); [|done].
    destruct (ENHARMONIC_EQUIVALENTS !! note) as [s|] eqn:Hs; simpl; [|done].
    destruct Hnote. apply is_root_spelling_iff. unfold is_root_spelling.
    apply orb_true_iff. right. unfold in_dict. apply bool_decide_eq_true. eauto. }
  assert (in_dict (note_for_idx note) NOTE_TO_INT = false) as ->; [|done].
  destruct (in_dict (note_for_idx note) NOTE_TO_INT) eqn:Hin; [|done].
  by apply in_NOTE_TO_INT in Hin.
Qed.

(** X7: the renderer never raises, whatever two strings it is given.  A
    note that is not one of the seventeen spellings comes back unchanged;
    a note that is one is rendered as a syllable of the flat alphabet when
    it is a flat spelling and of the sharp alphabet otherwise, at the
    distance of its pitch class from the base. *)
Theorem renderer_never_raises (note base : list N) :
  (∃ result, get_solfege_name note base = Ret result)
  ∧ (note ∉ ROOT_SPELLINGS → get_solfege_name note base = Ret note)
  ∧ (note ∈ ROOT_SPELLINGS →
     ∃ i syllable,
       pitch_class note = Some i
       ∧ get_solfege_name note base = Ret syllable
       ∧ alphabet_of note
           !! Z.to_nat ((i - dict_get NOTE_TO_INT base 0 + 12) mod 12)
         = Some syllable
       ∧ syllable ≠ note).
Proof.
  assert (note ∈ ROOT_SPELLINGS →
     ∃ i syllable,
       pitch_class note = Some i
       ∧ get_solfege_name note base = Ret syllable
       ∧ alphabet_of note
           !! Z.to_nat ((i - dict_get NOTE_TO_INT base 0 + 12) mod 12)
         = Some syllable
       ∧ syllable ≠ note) as Hin.
  { intros H.
    destruct (get_solfege_name_spelling note base H) as (i & syl & Hi & Hs & Ha).
    exists i, syl. repeat split; try done.
    apply list_elem_of_lookup_2 in Ha. intros ->. clear -H Ha.
    unfold ROOT_SPELLINGS in H.
    apply elem_of_app in H as [H|H]; elem_cases H; revert Ha;
      apply (bool_decide_unpack (_ ∉ _)); by vm_compute. }
  split; [|split; [apply get_solfege_name_unknown | done]].
  destruct (decide (note ∈ ROOT_SPELLINGS)) as [H|H].
  - destruct (Hin H) as (_ & syl & _ & -> & _). eauto.
  - rewrite get_solfege_name_unknown by done. eauto.
Qed.

Lemma renderer_never_raises_witness :
  (lit "Cb" ∉ ROOT_SPELLINGS)
  ∧ get_solfege_name (lit "Cb") (lit "D") = Ret (lit "Cb").
Proof.
  assert (lit "Cb" ∉ ROOT_SPELLINGS) as H.
  { apply (bool_decide_unpack _). by vm_compute. }
  split; [exact H|].
  exact (proj1 (proj2 (renderer_never_raises (lit "Cb") (lit "D"))) H).
Defined.

(** X8: a base the table does not know counts as "C": for a base that is
    not one of the twelve sharp spellings, a flat spelling such as "Db"
    included, the renderer returns what it returns for the base "C". *)
Theorem unknown_base_is_C (note base : list N) :
  base ∉ NOTES_SHARP →
  get_solfege_name note base = get_solfege_name note (lit "C").
Proof.
  intros H. rewrite !get_solfege_name_unfold. unfold dict_get.
  rewrite (NOTE_TO_INT_lookup_None base H).
  by replace (NOTE_TO_INT !! lit "C") with (Some 0) by (by vm_compute).
Qed.

Lemma unknown_base_is_C_witness :
  (lit "Db" ∉ NOTES_SHARP)
  ∧ get_solfege_name (lit "F") (lit "Db") = get_solfege_name (lit "F") (lit "C").
Proof.
  assert (lit "Db" ∉ NOTES_SHARP) as H.
  { apply (bool_decide_unpack _). by vm_compute. }
  split; [exact H|]. exact (unknown_base_is_C (lit "F") (lit "Db") H).
Defined.

Lemma relative_index_shift (i j k : Z) :
  ((i + k) mod 12 - (j + k) mod 12 + 12) mod 12 = (i - j + 12) mod 12.
Proof. Z.div_mod_to_equations. lia. Qed.

(** X9: movable do.  For a note and a base among the twelve sharp
    spellings, the renderer returns the entry of the sharp alphabet at
    (note - base) mod 12: "ド" when the note is the base, and the same
    syllable when note and base are transposed by the same offset. *)
Theorem movable_do (i j k : Z) :
  0 ≤ i < 12 → 0 ≤ j < 12 →
  ∃ note base note' base' syllable,
    NOTES_SHARP !! Z.to_nat i = Some note
    ∧ NOTES_SHARP !! Z.to_nat j = Some base
    ∧ NOTES_SHARP !! Z.to_nat (transposed_idx i k) = Some note'
    ∧ NOTES_SHARP !! Z.to_nat (transposed_idx j k) = Some base'
    ∧ get_solfege_name note base = Ret syllable
    ∧ SOLFEGE_SHARP !! Z.to_nat ((i - j) mod 12) = Some syllable
    ∧ get_solfege_name note' base' = Ret syllable
    ∧ (i = j → syllable = lit "ド").
Proof.
  assert (∀ i j, 0 ≤ i < 12 → 0 ≤ j < 12 →
            ∃ note base syllable,
              NOTES_SHARP !! Z.to_nat i = Some note
              ∧ NOTES_SHARP !! Z.to_nat j = Some base
              ∧ get_solfege_name note base = Ret syllable
              ∧ SOLFEGE_SHARP !! Z.to_nat ((i - j + 12) mod 12) = Some syllable)
    as Hrender.
  { clear. intros i j Hi Hj. pitch_cases i; pitch_cases j; do 3 eexists;
      (split; [by vm_compute|]); (split; [by vm_compute|]);
      (split; by vm_compute). }
  intros Hi Hj.
  destruct (Hrender i j Hi Hj) as (note & base & syl & Hn & Hb & Hs & Ha).
  destruct (Hrender _ _ (transposed_idx_range i k) (transposed_idx_range j k))
    as (note' & base' & syl' & Hn' & Hb' & Hs' & Ha').
  unfold transposed_idx in Ha'. rewrite relative_index_shift in Ha'.
  rewrite Ha in Ha'. injection Ha' as <-.
  exists note, base, note', base', syl. repeat split; try done.
  - rewrite <- Ha. f_equal. f_equal.
    replace (i - j + 12) with (i - j + 1 * 12) by lia.
    by rewrite Z.mod_add by lia.
  - intros ->. replace (j - j + 12) with 12 in Ha by lia.
    vm_compute in Ha. by injection Ha as <-.
Qed.

Lemma movable_do_witness :
  0 ≤ 9 < 12 ∧ 0 ≤ 7 < 12
  ∧ ∃ syllable,
      get_solfege_name (lit "A") (lit "G") = Ret syllable
      ∧ get_solfege_name (lit "B") (lit "A") = Ret syllable.
Proof.
  assert (0 ≤ 9 < 12) as Hi by lia. assert (0 ≤ 7 < 12) as Hj by lia.
  split; [exact Hi|]. split; [exact Hj|].
  destruct (movable_do 9 7 2 Hi Hj)
    as (note & base & note' & base' & syl & Hn & Hb & Hn' & Hb' & Hs & _ & Hs' & _).
  vm_compute in Hn, Hb, Hn', Hb'.
  injection Hn as <-. injection Hb as <-. injection Hn' as <-. injection Hb' as <-.
  exists syl. split; [exact Hs | exact Hs'].
Defined.

(** ** White space around keys and chords *)

Section Strip.
Context (U : unicode).

Lemma lstrip_blank_app (ws s : list N) :
  blank U ws → lstrip U (ws ++ s) = lstrip U s.
Proof. induction 1 as [|c ws Hc _ IH]; simpl; [done|]. by rewrite Hc. Qed.

Lemma lstrip_blank (ws : list N) : blank U ws → lstrip U ws = [].
Proof.
  intros H. rewrite <- (app_nil_r ws). by rewrite lstrip_blank_app.
Qed.

Lemma lstrip_head_app (c : N) (s t : list N) :
  char_isspace U c = false → lstrip U ((c :: s) ++ t) = (c :: s) ++ t.
Proof. intros Hc. simpl. by rewrite Hc. Qed.

(** What [lstrip] removes is white space, and what it leaves does not
    begin with white space. *)
Lemma lstrip_split (s : list N) :
  ∃ ws, s = ws ++ lstrip U s ∧ blank U ws
        ∧ (lstrip U s = []
           ∨ ∃ c, head (lstrip U s) = Some c ∧ char_isspace U c = false).
Proof.
  induction s as [|c s (ws & Hs & Hws & Hhead)]; simpl.
  - exists []. split; [done|]. split; [constructor | by left].
  - destruct (char_isspace U c) eqn:Hc.
    + exists (c :: ws). split; [simpl; by f_equal|].
      split; [by constructor | done].
    + exists []. split; [done|]. split; [constructor|]. right. eauto.
Qed.

Lemma strip_trimmed_padded (p x q : list N) :
  trimmed U x → blank U p → blank U q → strip U (p ++ x ++ q) = x.
Proof.
  intros Hx Hp Hq. unfold strip. rewrite lstrip_blank_app by done.
  assert (blank U (reverse q)) as Hrq.
  { by apply Forall_reverse. }
  destruct Hx as [->|[(c & Hc & Hsp) (d & Hd & Hsd)]].
  - simpl. rewrite (lstrip_blank q Hq). done.
  - destruct x as [|c' x]; [done|]. injection Hc as ->.
    rewrite lstrip_head_app by done.
    rewrite reverse_app, lstrip_blank_app by done.
    destruct (reverse (c :: x)) as [|d' r] eqn:Hr.
    { apply (f_equal reverse) in Hr. by rewrite reverse_involutive in Hr. }
    assert (d' = d) as ->.
    { apply (f_equal reverse) in Hr. rewrite reverse_involutive in Hr.
      rewrite Hr, reverse_cons, last_snoc in Hd. congruence. }
    simpl. rewrite Hsd. by rewrite <- Hr, reverse_involutive.
Qed.

Lemma strip_split (s : list N) :
  ∃ p q, s = p ++ strip U s ++ q ∧ blank U p ∧ blank U q ∧ trimmed U (strip U s).
Proof.
  unfold strip.
  destruct (lstrip_split s) as (p & Hs & Hp & Hhead).
  destruct (lstrip_split (reverse (lstrip U s))) as (q & Hr & Hq & Hlast).
  set (t := lstrip U s) in *. set (r := lstrip U (reverse t)) in *.
  assert (t = reverse r ++ reverse q) as Ht.
  { apply (f_equal reverse) in Hr. by rewrite reverse_involutive, reverse_app in Hr. }
  exists p, (reverse q). split; [by rewrite <- Ht|]. split; [done|]. split.
  { by apply Forall_reverse. }
  destruct Hlast as [Hnil|(d & Hd & Hsd)]; [left; by rewrite Hnil|].
  right. destruct r as [|d' r']; [done|]. injection Hd as ->. split.
  - destruct Hhead as [Hnil|(c & Hc & Hsc)].
    + rewrite Hnil in Ht. apply (f_equal length) in Ht.
      rewrite length_app, !length_reverse in Ht. simpl in Ht. lia.
    + exists c. split; [|done]. rewrite Ht in Hc.
      rewrite reverse_cons in *. by destruct (reverse r').
  - exists d. split; [|done]. by rewrite reverse_cons, last_snoc.
Qed.

Lemma strip_idempotent (s : list N) : strip U (strip U s) = strip U s.
Proof.
  destruct (strip_split s) as (p & q & _ & _ & _ & Ht).
  rewrite <- (strip_trimmed_padded [] (strip U s) []) at 2 by (done || constructor).
  by rewrite app_nil_r.
Qed.

Lemma strip_padded (ws s ws' : list N) :
  blank U ws → blank U ws' → strip U (ws ++ s ++ ws') = strip U s.
Proof.
  intros Hws Hws'.
  destruct (strip_split s) as (p & q & Hs & Hp & Hq & Ht).
  rewrite Hs at 1.
  replace (ws ++ (p ++ strip U s ++ q) ++ ws')
    with ((ws ++ p) ++ strip U s ++ (q ++ ws')) by (by rewrite <- !app_assoc).
  apply strip_trimmed_padded; [done|..]; unfold blank in *; by apply Forall_app.
Qed.
End Strip.

(** X10: white space around an instrument key is ignored.  Stripping is
    idempotent, so the key stripped by the handler and stripped again by
    the table lookup gets the answer of the key itself, and a key padded
    with white space on either side gets the answer of the bare key. *)
Theorem key_white_space_ignored (U : unicode) (key ws ws' : list N) :
  blank U ws → blank U ws' →
  strip U (strip U key) = strip U key
  ∧ get_transposition_semitones U (strip U key) = get_transposition_semitones U key
  ∧ get_transposition_semitones U (ws ++ key ++ ws')
    = get_transposition_semitones U key
  ∧ (get_transposition_semitones U ws = None).
Proof.
  intros Hws Hws'. unfold get_transposition_semitones.
  rewrite strip_idempotent, strip_padded by done.
  repeat split.
  assert (strip U ws = []) as ->; [|by vm_compute].
  unfold strip. by rewrite (lstrip_blank U ws Hws).
Qed.

Lemma key_white_space_ignored_witness :
  blank ascii_only (lit " ") ∧ blank ascii_only (lit "  ")
  ∧ get_transposition_semitones ascii_only (lit " " ++ lit "eb" ++ lit "  ")
    = get_transposition_semitones ascii_only (lit "eb").
Proof.
  assert (blank ascii_only (lit " ")) as H1 by (by repeat constructor).
  assert (blank ascii_only (lit "  ")) as H2 by (by repeat constructor).
  split; [exact H1|]. split; [exact H2|].
  exact (proj1 (proj2 (proj2
           (key_white_space_ignored ascii_only (lit "eb") _ _ H1 H2)))).
Defined.

(** ** The syllables of a chord and of a progression *)

Lemma solfege_note_unfold (transposition : Z) (m : bool) (nt : notation)
    (note_sharp : list N) :
  solfege_note transposition m nt note_sharp
  = (transposed ← transposed_note_sharp transposition note_sharp;
     get_solfege_name (note_for_solfege transposed m nt) (lit "C")).
Proof.
  unfold solfege_note, transposed_note_for_solfege, transposed_note_sharp.
  destruct (dict_getitem NOTE_TO_INT note_sharp); simpl; [|done].
  by destruct (getitem NOTES_SHARP _).
Qed.

(** The rendering of a whole scale, by pitch class of its root. *)
Lemma rendered_scale (root_int : Z) (m : bool) (nt : notation) :
  0 ≤ root_int < 12 →
  ∃ scale syllables,
    scale_notes_sharp root_int m = Ret scale
    ∧ for_each (λ note, get_solfege_name (note_for_solfege note m nt) (lit "C"))
               scale = Ret syllables
    ∧ length syllables = 5%nat
    ∧ NoDup syllables
    ∧ Forall (λ syllable, syllable ∈ chord_alphabet nt m) syllables.
Proof.
  intros H. pitch_cases root_int; destruct m, nt; do 2 eexists;
    (split; [by vm_compute|]); (split; [by vm_compute|]);
    (split; [done|]);
    (split; apply (bool_decide_unpack _); by vm_compute).
Qed.

Lemma get_pentatonic_scale_notes_inv (U : unicode) (chord : list N) scale
    (m : bool) (nt : notation) :
  get_pentatonic_scale_notes U chord = Ret (Some (scale, m, nt)) →
  recognised U chord = true
  ∧ ∃ root_int, 0 ≤ root_int < 12 ∧ scale_notes_sharp root_int m = Ret scale.
Proof.
  unfold recognised.
  destruct (get_root_and_type_spec U chord) as (m' & cand & _ & Hparse).
  destruct (find_root cand (length cand)) as [root|].
  - destruct (get_pentatonic_scale_notes_parsed U _ _ _ _ Hparse)
      as (k & _ & Hk & ->).
    destruct (scale_notes_sharp_total k m' Hk) as (notes & Hnotes & _).
    rewrite Hnotes, Hparse. intros [= <- <- _]. eauto.
  - unfold get_pentatonic_scale_notes. by rewrite Hparse.
Qed.

Lemma chord_solfege_notes_spec (U : unicode) (transposition : Z) (chord : list N) :
  match get_pentatonic_scale_notes U chord with
  | Ret (Some (_, m, nt)) =>
      recognised U chord = true
      ∧ ∃ syllables,
          chord_solfege_notes U transposition chord = Ret syllables
          ∧ length syllables = 5%nat ∧ NoDup syllables
          ∧ Forall (λ syllable, syllable ∈ chord_alphabet nt m) syllables
  | _ => recognised U chord = false
         ∧ chord_solfege_notes U transposition chord = Ret []
  end.
Proof.
  destruct (get_pentatonic_scale_notes_total U chord) as (data & Hdata).
  rewrite Hdata. destruct data as [[[scale m] nt]|].
  - destruct (get_pentatonic_scale_notes_inv U _ _ _ _ Hdata)
      as (Hrec & k & Hk & Hscale).
    split; [done|]. unfold chord_solfege_notes. rewrite Hdata. simpl.
    rewrite (for_each_ext _ _ _ (solfege_note_unfold transposition m nt)).
    pose proof (transposed_scale k transposition m scale Hk Hscale) as Ht.
    destruct (rendered_scale (transposed_idx k transposition) m nt
                (transposed_idx_range _ _))
      as (scale' & syllables & Hscale' & Hsyl & Hlen & Hdup & Halpha).
    rewrite Hscale' in Ht. rewrite (for_each_bind _ _ _ _ Ht). eauto.
  - split; [|unfold chord_solfege_notes; by rewrite Hdata].
    unfold recognised.
    destruct (get_root_and_type_spec U chord) as (m' & cand & _ & Hparse).
    destruct (find_root cand (length cand)) as [root|]; [|by rewrite Hparse].
    destruct (get_pentatonic_scale_notes_parsed U _ _ _ _ Hparse)
      as (k & _ & Hk & Hgen).
    destruct (scale_notes_sharp_total k m' Hk) as (notes & Hnotes & _).
    rewrite Hnotes in Hgen. rewrite Hgen in Hdata. done.
Qed.

(** X11: the five notes of a chord are rendered as five different
    syllables, all of one alphabet: the flat alphabet when the chord
    prefers flats and the sharp alphabet otherwise, whatever the
    transposition. *)
Theorem chord_syllables_distinct (U : unicode) (transposition : Z)
    (chord : list N) scale (is_minor_chord : bool) (notation_type : notation) :
  get_pentatonic_scale_notes U chord
  = Ret (Some (scale, is_minor_chord, notation_type)) →
  ∃ syllables,
    chord_solfege_notes U transposition chord = Ret syllables
    ∧ length syllables = 5%nat
    ∧ NoDup syllables
    ∧ Forall (λ syllable, syllable ∈ chord_alphabet notation_type is_minor_chord)
             syllables.
Proof.
  intros H. pose proof (chord_solfege_notes_spec U transposition chord) as Hspec.
  rewrite H in Hspec. by destruct Hspec as [_ ?].
Qed.

Lemma chord_syllables_distinct_witness :
  ∃ syllables,
    chord_solfege_notes ascii_only 9 (lit "Ebm7") = Ret syllables
    ∧ NoDup syllables.
Proof.
  assert (get_pentatonic_scale_notes ascii_only (lit "Ebm7")
          = Ret (Some ([lit "D#"; lit "F#"; lit "G#"; lit "A#"; lit "C#"],
                       true, flat))) as H by (by vm_compute).
  destruct (chord_syllables_distinct ascii_only 9 _ _ _ _ H)
    as (syllables & Hs & _ & Hdup & _).
  exists syllables. split; [exact Hs | exact Hdup].
Defined.

Lemma for_each_fmap {A B} (f : A → res B) (g : A → B) (l : list A) :
  (∀ x, x ∈ l → f x = Ret (g x)) → for_each f l = Ret (g <$> l).
Proof.
  induction l as [|x l IH]; intros H; simpl; [done|].
  rewrite H by (by left). simpl. rewrite IH by (intros; apply H; by right).
  done.
Qed.

Lemma chord_solfege_notes_syllables_of (U : unicode) (transposition : Z)
    (chord : list N) :
  chord_solfege_notes U transposition chord
  = Ret (syllables_of U transposition chord).
Proof.
  unfold syllables_of.
  by destruct (chord_solfege_notes_total U transposition chord) as (l & ->).
Qed.

Lemma syllables_of_spec (U : unicode) (transposition : Z) (chord : list N) :
  length (syllables_of U transposition chord)
  = (if recognised U chord then 5%nat else 0%nat)
  ∧ NoDup (syllables_of U transposition chord)
  ∧ Forall (λ syllable, syllable ∈ SOLFEGE_SHARP ++ SOLFEGE_FLAT)
           (syllables_of U transposition chord).
Proof.
  pose proof (chord_solfege_notes_spec U transposition chord) as Hspec.
  unfold syllables_of.
  destruct (get_pentatonic_scale_notes U chord) as [[[[scale m] nt]|]|e].
  - destruct Hspec as (-> & syllables & -> & Hlen & Hdup & Halpha).
    split; [done|]. split; [done|]. eapply Forall_impl; [exact Halpha|].
    intros syllable. unfold chord_alphabet. rewrite elem_of_app.
    destruct (decide (prefers_flat nt m)); auto.
  - destruct Hspec as (-> & ->). repeat split; constructor.
  - destruct Hspec as (-> & ->). repeat split; constructor.
Qed.

Lemma all_solfege_notes_for_counting_concat (U : unicode) (transposition : Z)
    (all_measures_data : list (list (list N))) :
  all_solfege_notes_for_counting U transposition all_measures_data
  = Ret (concat (syllables_of U transposition <$> concat all_measures_data)).
Proof.
  assert (concat (syllables_of U transposition <$> concat all_measures_data)
          = concat ((λ measure, concat (syllables_of U transposition <$> measure))
                      <$> all_measures_data)) as ->.
  { induction all_measures_data as [|measure data IH]; [done|].
    csimpl. by rewrite fmap_app, concat_app, IH. }
  unfold all_solfege_notes_for_counting.
  rewrite (for_each_fmap _
             (λ measure, concat (syllables_of U transposition <$> measure)));
    [done|].
  intros measure _.
  by rewrite (for_each_fmap _ (syllables_of U transposition))
    by (intros; apply chord_solfege_notes_syllables_of).
Qed.

Lemma syllables_of_length (U : unicode) (transposition : Z)
    (chords : list (list N)) :
  length (concat (syllables_of U transposition <$> chords))
  = (5 * length (List.filter (recognised U) chords))%nat.
Proof.
  induction chords as [|chord chords IH]; [done|].
  csimpl. rewrite length_app, IH.
  destruct (syllables_of_spec U transposition chord) as (-> & _).
  destruct (recognised U chord); simpl; lia.
Qed.

(** X12: the counting phase never raises and collects five syllables for
    every recognised chord of the progression, in order, and nothing for
    the others: the tally holds five times as many syllables as there are
    recognised chords, each a syllable of one of the two alphabets, so a
    progression of unrecognised chords only is analysed with an empty
    tally. *)
Theorem tally_five_per_recognised_chord (U : unicode) (transposition : Z)
    (all_measures_data : list (list (list N))) :
  ∃ all_solfege,
    all_solfege_notes_for_counting U transposition all_measures_data
    = Ret all_solfege
    ∧ all_solfege
      = concat (syllables_of U transposition <$> concat all_measures_data)
    ∧ length all_solfege
      = (5 * length (List.filter (recognised U) (concat all_measures_data)))%nat
    ∧ Forall (λ syllable, syllable ∈ SOLFEGE_SHARP ++ SOLFEGE_FLAT) all_solfege
    ∧ (List.filter (recognised U) (concat all_measures_data) = [] →
       all_solfege = [] ∧ top_3_notes_info all_solfege = []).
Proof.
  eexists. split; [apply all_solfege_notes_for_counting_concat|].
  split; [done|].
  generalize (concat all_measures_data). intros chords.
  pose proof (syllables_of_length U transposition chords) as Hlen.
  split; [done|]. split.
  - clear Hlen. induction chords as [|chord chords IH]; [constructor|].
    csimpl. apply Forall_app. split; [|apply IH].
    by destruct (syllables_of_spec U transposition chord) as (_ & _ & ?).
  - intros Hnone. rewrite Hnone in Hlen. simpl in Hlen.
    destruct (concat _); [done | simpl in Hlen; lia].
Qed.

(** ** More on the tally *)

Section Tally.
Context {A : Type} `{EqDecision A}.
Local Open Scope nat_scope.

Lemma counter_add_sum (x : A) (c : list (A * nat)) :
  sum_list (counter_add x c).*2 = S (sum_list c.*2).
Proof.
  induction c as [|[y n] c IH]; csimpl; [done|].
  case_bool_decide; csimpl; [done|]. rewrite IH. lia.
Qed.

Lemma Counter_sum (l : list A) : sum_list (Counter l).*2 = length l.
Proof.
  induction l as [|x l IH] using rev_ind; [done|].
  unfold Counter in *. rewrite foldl_app. cbn [foldl].
  rewrite counter_add_sum, IH, length_app. simpl. lia.
Qed.

Lemma first_seen_NoDup_id (l : list A) : NoDup l → first_seen l = l.
Proof.
  induction l as [|x l IH] using rev_ind; [done|].
  intros (Hl & Hx & _)%NoDup_app. rewrite first_seen_snoc, IH by done.
  rewrite decide_False; [done|]. intros Hin. apply (Hx x Hin). by left.
Qed.

Lemma occurrences_NoDup (x : A) (l : list A) :
  NoDup l → x ∈ l → occurrences x l = 1.
Proof.
  induction l as [|y l IH]; intros Hdup Hx; [by apply elem_of_nil in Hx|].
  apply NoDup_cons in Hdup as [Hy Hdup]. simpl. case_bool_decide as Hyx.
  - subst y. by rewrite occurrences_not_elem.
  - apply elem_of_cons in Hx as [->|Hx]; [done|]. by rewrite IH.
Qed.

Lemma Counter_NoDup (l : list A) :
  NoDup l → Counter l = (λ x, (x, 1)) <$> l.
Proof.
  intros Hdup. rewrite Counter_first_seen, first_seen_NoDup_id by done.
  apply list_fmap_ext. intros i x Hx. f_equal.
  apply occurrences_NoDup; [done|]. by eapply list_elem_of_lookup_2.
Qed.

Lemma sorted_by_count_ones (l : list A) :
  sorted_by_count ((λ x, (x, 1)) <$> l) = (λ x, (x, 1)) <$> l.
Proof.
  induction l as [|x l IH]; [done|]. csimpl.
  unfold sorted_by_count in *. simpl. rewrite IH. by destruct l.
Qed.

Lemma most_common_NoDup (n : nat) (l : list A) :
  NoDup l → most_common n (Counter l) = (λ x, (x, 1)) <$> take n l.
Proof.
  intros Hdup. unfold most_common.
  by rewrite Counter_NoDup, sorted_by_count_ones, fmap_take.
Qed.

Lemma first_seen_length (l : list A) : length (first_seen l) ≤ length l.
Proof.
  induction l as [|x l IH] using rev_ind; [done|].
  rewrite first_seen_snoc, length_app. simpl.
  destruct (decide (x ∈ first_seen l)); [lia|]. rewrite length_app. simpl. lia.
Qed.

Lemma most_common_all (l : list A) :
  most_common (length l) (Counter l) ≡ₚ Counter l.
Proof.
  unfold most_common. rewrite take_ge; [apply sorted_by_count_perm|].
  rewrite sorted_by_count_perm, Counter_first_seen, length_fmap.
  apply first_seen_length.
Qed.
End Tally.

(** X13: the tally loses nothing.  Its counts add up to the number of
    syllables collected, five for each recognised chord of the
    progression; its keys are the distinct syllables, each with the
    number of its occurrences, and ranking all of them only reorders the
    tally. *)
Theorem tally_counts_every_syllable (all_solfege : list (list N)) :
  sum_list (Counter all_solfege).*2 = length all_solfege
  ∧ (∀ U transposition all_measures_data,
       all_solfege_notes_for_counting U transposition all_measures_data
       = Ret all_solfege →
       sum_list (Counter all_solfege).*2
       = (5 * length (List.filter (recognised U) (concat all_measures_data)))%nat)
  ∧ NoDup (Counter all_solfege).*1
  ∧ (∀ syllable, syllable ∈ (Counter all_solfege).*1 ↔ syllable ∈ all_solfege)
  ∧ (∀ syllable k,
       (syllable, k) ∈ Counter all_solfege → k = occurrences syllable all_solfege)
  ∧ most_common (length all_solfege) (Counter all_solfege) ≡ₚ Counter all_solfege.
Proof.
  split; [apply Counter_sum|]. split.
  { intros U transposition data. rewrite all_solfege_notes_for_counting_concat.
    intros [= <-]. rewrite Counter_sum. apply syllables_of_length. }
  split; [apply Counter_keys_NoDup|].
  split; [|split; [|apply most_common_all]].
  - intros syllable. rewrite list_elem_of_fmap. split.
    + intros (a & -> & Ha). by apply elem_of_Counter in Ha as [? _].
    + intros H. exists (syllable, occurrences syllable all_solfege).
      split; [done|]. by apply elem_of_Counter.
  - intros syllable k H. by apply elem_of_Counter in H as [_ ?].
Qed.

(** X14: when no syllable occurs twice, the ranking is the first three
    syllables in the order collected, each with count 1.  This is so for
    the syllables of a single chord, which are five different ones. *)
Theorem ranking_without_repeats (all_solfege : list (list N)) :
  NoDup all_solfege →
  top_3_notes_info all_solfege = (λ syllable, (syllable, 1%nat)) <$> take 3 all_solfege
  ∧ (∀ U transposition chord syllables,
       chord_solfege_notes U transposition chord = Ret syllables →
       top_3_notes_info syllables
       = (λ syllable, (syllable, 1%nat)) <$> take 3 syllables).
Proof.
  intros Hdup. split; [by apply most_common_NoDup|].
  intros U transposition chord syllables Hs. apply most_common_NoDup.
  rewrite chord_solfege_notes_syllables_of in Hs. injection Hs as <-.
  by destruct (syllables_of_spec U transposition chord) as (_ & ? & _).
Qed.

Lemma ranking_without_repeats_witness :
  NoDup [lit "レ"; lit "ファ"; lit "ソ"; lit "ラ"; lit "ド"]
  ∧ top_3_notes_info [lit "レ"; lit "ファ"; lit "ソ"; lit "ラ"; lit "ド"]
    = [(lit "レ", 1%nat); (lit "ファ", 1%nat); (lit "ソ", 1%nat)].
Proof.
  assert (NoDup [lit "レ"; lit "ファ"; lit "ソ"; lit "ラ"; lit "ド"]) as H.
  { apply (bool_decide_unpack _). by vm_compute. }
  split; [exact H|]. exact (proj1 (ranking_without_repeats _ H)).
Defined.

(** ** Blank boxes *)

Section Boxes.
Context (U : unicode).

Lemma strip_nil_blank (s : list N) : strip U s = [] ↔ blank U s.
Proof.
  split.
  - intros Hs. destruct (strip_split U s) as (p & q & Heq & Hp & Hq & _).
    rewrite Hs in Heq. rewrite Heq. unfold blank in *. by apply Forall_app.
  - intros Hs. unfold strip. by rewrite (lstrip_blank U s Hs).
Qed.

Lemma measure_chords_nil (vars : list (list N * list N)) (i : nat) :
  measure_chords U vars i = []
  ↔ ∀ var1 var2, vars !! i = Some (var1, var2) → blank U var1 ∧ blank U var2.
Proof.
  unfold measure_chords. destruct (vars !! i) as [[var1 var2]|]; [|done].
  split.
  - intros H v1 v2 [= <- <-]. rewrite <- !strip_nil_blank.
    do 2 case_bool_decide; done.
  - intros H. destruct (H var1 var2 eq_refl) as [H1 H2].
    apply strip_nil_blank in H1, H2. by rewrite H1, H2.
Qed.

Lemma no_chords_test (vars : list (list N * list N)) (rows : list nat) :
  existsb (λ chord_list : list (list N), negb (bool_decide (chord_list = [])))
          (measure_chords U vars <$> rows) = false
  ↔ ∀ i, i ∈ rows → measure_chords U vars i = [].
Proof.
  induction rows as [|i rows IH]; csimpl.
  - split; [intros _ i Hi; by apply elem_of_nil in Hi | done].
  - rewrite orb_false_iff, IH, negb_false_iff, bool_decide_eq_true. split.
    + intros [Hi Hrows] j [->|Hj]%elem_of_cons; auto.
    + intros H. split; [apply H; by left | intros j Hj; apply H; by right].
Qed.
End Boxes.

(** X19: boxes holding white space only count as empty.  The handler
    reports a missing key exactly when the key box is blank, before any
    other check; with a valid key and a measure count, it reports that no
    chord was chosen exactly when both boxes of every row within the
    count are blank. *)
Theorem blank_boxes_are_empty (U : unicode) (f : form) :
  (run_analysis_gui U f = Ret KeyMissing ↔ blank U (key_var f))
  ∧ (∀ transposition n,
       get_transposition_semitones U (strip U (key_var f)) = Some transposition →
       measure_count f = Some n →
       (run_analysis_gui U f = Ret NoChords
        ↔ ∀ (i : nat) var1 var2,
            (i < Z.to_nat n)%nat →
            measure_vars f !! i = Some (var1, var2) →
            blank U var1 ∧ blank U var2)).
Proof.
  split.
  - rewrite <- strip_nil_blank. unfold run_analysis_gui.
    case_bool_decide as Hkey; [done|]. split; [|done].
    destruct (get_transposition_semitones U (strip U (key_var f))); [|done].
    destruct (measure_count f); [|done].
    match goal with |- context [negb ?b] => destruct b end; simpl; [|done].
    match goal with |- context [all_solfege_notes_for_counting U ?t ?d] =>
      destruct (all_solfege_notes_for_counting_total U t d) as (all & ->) end.
    done.
  - intros transposition n Ht Hn. unfold run_analysis_gui. rewrite Ht, Hn.
    case_bool_decide as Hkey.
    { rewrite Hkey in Ht. by vm_compute in Ht. }
    match goal with |- context [existsb ?p ?l] =>
      pose proof (no_chords_test U (measure_vars f) (seq 0 (Z.to_nat n))) as Htest;
      destruct (existsb p l) end; simpl.
    + match goal with |- context [all_solfege_notes_for_counting U ?t ?d] =>
        destruct (all_solfege_notes_for_counting_total U t d) as (all & ->) end.
      simpl. split; [done|]. intros Hblank.
      assert (true = false); [|done]. apply Htest. intros i Hi.
      apply measure_chords_nil. intros v1 v2. apply Hblank.
      apply elem_of_seq in Hi. lia.
    + split; [|done]. intros _ i v1 v2 Hi.
      apply measure_chords_nil, Htest; [done|]. apply elem_of_seq. lia.
Qed.

Lemma blank_boxes_are_empty_witness :
  run_analysis_gui ascii_only (Form (lit "Bb") (Some 2) [(lit " ", lit ""); (lit "", lit "  ")])
  = Ret NoChords.
Proof.
  assert (get_transposition_semitones ascii_only
            (strip ascii_only (lit "Bb")) = Some 2) as Ht by (by vm_compute).
  apply (proj2 (blank_boxes_are_empty ascii_only
                  (Form (lit "Bb") (Some 2) [(lit " ", lit ""); (lit "", lit "  ")]))
           2 2 Ht eq_refl).
  intros [|[|i]] v1 v2 Hi Hv; [| |simpl in Hi; lia];
    injection Hv as <- <-; split; by repeat constructor.
Defined.

(** ** The form *)

(** X15: every chord the form offers is recognised: each entry of
    [chord_options] but the blank first one parses to a root, followed by
    'm' exactly when the parser finds it minor, and gets a scale.  All
    seventeen spellings are offered, as major and as minor chords. *)
Theorem chord_options_recognised (U : unicode) :
  (∀ chord,
     chord ∈ chord_options → chord ≠ [] →
     ∃ root m nt scale,
       get_root_and_type U chord = Ret (Some (root, m, nt))
       ∧ chord = root ++ (if m : bool then [ch_m] else [])
       ∧ get_pentatonic_scale_notes U chord = Ret (Some (scale, m, nt)))
  ∧ (∀ root,
       root ∈ ROOT_SPELLINGS →
       root ∈ chord_options ∧ root ++ [ch_m] ∈ chord_options)
  ∧ NoDup chord_options
  ∧ length chord_options = 35%nat
  ∧ getitem chord_options 0 = Ret [].
Proof.
  split.
  { intros chord Hin Hne. elem_cases Hin; [done|..];
      do 4 eexists; (split; [by vm_compute|]); (split; by vm_compute). }
  split.
  { intros root Hin. unfold ROOT_SPELLINGS in Hin.
    apply elem_of_app in Hin as [H|H]; elem_cases H;
      split; apply (bool_decide_unpack _); by vm_compute. }
  split; [apply (bool_decide_unpack _); by vm_compute|]. by split.
Qed.

Lemma chord_options_recognised_witness :
  (lit "F#m" ∈ chord_options) ∧ lit "F#m" ≠ []
  ∧ ∃ root m nt scale,
      get_root_and_type ascii_only (lit "F#m") = Ret (Some (root, m, nt))
      ∧ lit "F#m" = root ++ (if m : bool then [ch_m] else [])
      ∧ get_pentatonic_scale_notes ascii_only (lit "F#m") = Ret (Some (scale, m, nt)).
Proof.
  assert (lit "F#m" ∈ chord_options) as Hin.
  { apply (bool_decide_unpack _). by vm_compute. }
  assert (lit "F#m" ≠ []) as Hne by done.
  split; [exact Hin|]. split; [exact Hne|].
  exact (proj1 (chord_options_recognised ascii_only) _ Hin Hne).
Defined.



(** ** The display *)

Lemma colors_getitem (i : Z) :
  0 ≤ i < len colors →
  ∃ color, getitem colors i = Ret color ∧ colors !! Z.to_nat i = Some color.
Proof.
  unfold len. simpl. intros H.
  assert (i = 0 ∨ i = 1 ∨ i = 2) as [->|[->| ->]] by lia; eexists; by vm_compute.
Qed.

Lemma odict_set_fresh {V} (k : list N) (v : V) (d : list (list N * V)) :
  k ∉ d.*1 → odict_set k v d = d ++ [(k, v)].
Proof.
  induction d as [|[k' v'] d IH]; csimpl; [done|].
  intros [Hne Hd]%not_elem_of_cons.
  rewrite bool_decide_eq_false_2 by congruence. by rewrite IH.
Qed.

(** The loop of lines 317-319 pairs the keys of the ranking with the
    colours, as long as there are colours. *)
Lemma highlight_colors_from_spec (top_3 : list (list N * nat)) (i : nat)
    (acc : list (list N * list N)) :
  NoDup (acc.*1 ++ top_3.*1) →
  highlight_colors_from (Z.of_nat i) top_3 acc
  = Ret (acc ++ zip top_3.*1 (drop i colors)).
Proof.
  revert i acc. induction top_3 as [|[note count] top_3 IH]; intros i acc Hdup.
  - simpl. by rewrite app_nil_r.
  - cbn [highlight_colors_from]. csimpl in Hdup.
    apply NoDup_app in Hdup as (Hacc & Hdisj & Htop).
    apply NoDup_cons in Htop as [Hnote Htop].
    assert (note ∉ acc.*1) as Hfresh.
    { intros Hin. apply (Hdisj _ Hin). by left. }
    replace (Z.of_nat i + 1) with (Z.of_nat (S i)) by lia.
    case_bool_decide as Hi.
    + destruct (colors_getitem (Z.of_nat i)) as (color & -> & Hcolor); [lia|].
      rewrite Nat2Z.id in Hcolor. cbn [mbind res_bind bind].
      rewrite odict_set_fresh by done. rewrite IH.
      * rewrite <- app_assoc. do 2 f_equal. csimpl.
        by rewrite (drop_S _ _ _ Hcolor).
      * rewrite fmap_app. csimpl. rewrite <- app_assoc. csimpl.
        apply NoDup_app. split; [done|]. split; [|by apply NoDup_cons].
        intros x Hx Hx'. apply elem_of_cons in Hx' as [->|Hx']; [done|].
        apply (Hdisj _ Hx). by right.
    + rewrite IH.
      * csimpl. rewrite !drop_ge; [by destruct top_3.*1|..];
          unfold len in Hi; simpl in *; lia.
      * apply NoDup_app. split; [done|]. split; [|done].
        intros x Hx Hx'. apply (Hdisj _ Hx). by right.
Qed.

Lemma find_tag_found (solfege_note : list N) (k0 : Z)
    (items : list (list N * list N)) (k : nat) (color : list N) :
  NoDup items.*1 →
  items !! k = Some (solfege_note, color) →
  find_tag solfege_note k0 items = Some (highlight_tag (k0 + Z.of_nat k + 1)).
Proof.
  revert k0 k. induction items as [|[note c] items IH]; intros k0 k Hdup Hk;
    [done|].
  csimpl in Hdup. apply NoDup_cons in Hdup as [Hnote Hdup]. simpl.
  destruct k as [|k].
  - injection Hk as -> ->. rewrite bool_decide_eq_true_2 by done.
    do 2 f_equal. lia.
  - simpl in Hk. rewrite bool_decide_eq_false_2.
    + rewrite (IH (k0 + 1) k) by done. do 2 f_equal. lia.
    + intros ->. apply Hnote. apply list_elem_of_fmap.
      exists (note, color). split; [done|]. by eapply list_elem_of_lookup_2.
Qed.

Lemma find_tag_not_found (solfege_note : list N) (k0 : Z)
    (items : list (list N * list N)) :
  solfege_note ∉ items.*1 → find_tag solfege_note k0 items = None.
Proof.
  revert k0. induction items as [|[note c] items IH]; intros k0 Hin; [done|].
  csimpl in Hin. apply not_elem_of_cons in Hin as [Hne Hin]. simpl.
  rewrite bool_decide_eq_false_2 by done. by apply IH.
Qed.

Lemma legend_items_elem (top_3 : list (list N * nat)) (i : Z) (k : nat)
    (note : list N) (count : nat) :
  0 ≤ i → i + Z.of_nat (length top_3) ≤ len colors →
  top_3 !! k = Some (note, count) →
  (note, Some (highlight_tag (i + Z.of_nat k + 1))) ∈ legend_items i top_3.
Proof.
  revert i k. induction top_3 as [|[n c] top_3 IH]; intros i k Hi Hlen Hk; [done|].
  cbn [legend_items]. simpl in Hlen.
  rewrite bool_decide_eq_true_2 by lia.
  destruct k as [|k].
  - injection Hk as -> ->. replace (i + Z.of_nat 0 + 1) with (i + 1) by lia.
    right. by left.
  - simpl in Hk. do 3 right.
    replace (i + Z.of_nat (S k) + 1) with ((i + 1) + Z.of_nat k + 1) by lia.
    apply IH; [lia | lia | done].
Qed.

Lemma highlight_colors_from_total (top_3 : list (list N * nat)) (i : Z)
    (acc : list (list N * list N)) :
  0 ≤ i → ∃ hmap, highlight_colors_from i top_3 acc = Ret hmap.
Proof.
  revert i acc. induction top_3 as [|[note count] top_3 IH]; intros i acc Hi;
    cbn [highlight_colors_from]; [eauto|].
  case_bool_decide as Hlt; [|apply IH; lia].
  destruct (colors_getitem i) as (color & -> & _); [lia|].
  cbn [mbind res_bind bind]. apply IH. lia.
Qed.

Lemma display_chord_total (U : unicode) (transposition : Z)
    (hmap : list (list N * list N)) (chord : list N) :
  ∃ inserted, display_chord U transposition hmap chord = Ret inserted.
Proof.
  destruct (chord_solfege_notes_total U transposition chord) as (l & Hl).
  unfold display_chord. unfold chord_solfege_notes in Hl.
  destruct (get_pentatonic_scale_notes_total U chord) as (data & Hdata).
  rewrite Hdata in *. cbn [mbind res_bind bind] in *.
  destruct data as [[[scale m] nt]|]; [|eauto]. rewrite Hl. eauto.
Qed.

Lemma display_measure_total (U : unicode) (transposition : Z)
    (hmap : list (list N * list N)) (i : nat) (measure : list (list N)) :
  ∃ inserted, display_measure U transposition hmap i measure = Ret inserted.
Proof.
  unfold display_measure. case_bool_decide; [eauto|].
  destruct (for_each_Forall (display_chord U transposition hmap) (λ _, True)
              measure) as (chords & -> & _); [|simpl; eauto].
  intros chord _. destruct (display_chord_total U transposition hmap chord)
    as (inserted & ->). eauto.
Qed.

Lemma display_syllables_spaced (hmap : list (list N * list N))
    (syllables : list (list N)) :
  display_syllables hmap syllables
  = spaced_syllables (λ syllable, find_tag syllable 0 hmap) syllables.
Proof.
  unfold display_syllables, len.
  enough (∀ (o : nat) l,
    concat (imap (λ j solfege_note,
              (solfege_note, find_tag solfege_note 0 hmap)
              :: (if bool_decide (Z.of_nat (o + j) < Z.of_nat (o + length l) - 1)
                  then [(lit " ", None)] else [])) l)
    = spaced_syllables (λ syllable, find_tag syllable 0 hmap) l) as H.
  { apply (H 0%nat syllables). }
  intros o l. revert o. induction l as [|x l IH]; intros o; [done|].
  rewrite imap_cons. cbn [concat spaced_syllables].
  rewrite <- (IH (S o)). rewrite <- app_comm_cons. f_equal.
  assert (∀ j, bool_decide (Z.of_nat (o + S j) < Z.of_nat (o + length (x :: l)) - 1)
               = bool_decide (Z.of_nat (S o + j) < Z.of_nat (S o + length l) - 1))
    as Hshift.
  { intros j. apply bool_decide_ext. simpl length. lia. }
  destruct l as [|y l].
  - simpl. rewrite bool_decide_eq_false_2 by lia. done.
  - rewrite bool_decide_eq_true_2 by (simpl; lia).
    change ([?b] ++ ?c) with (b :: c). f_equal. f_equal.
    apply imap_ext. intros j z _. cbn [compose]. by rewrite Hshift.
Qed.

Lemma find_tag_inv (solfege_note : list N) (k0 : Z)
    (items : list (list N * list N)) (tag : list N) :
  find_tag solfege_note k0 items = Some tag →
  ∃ (k : nat) color,
    items !! k = Some (solfege_note, color)
    ∧ tag = highlight_tag (k0 + Z.of_nat k + 1).
Proof.
  revert k0. induction items as [|[note c] items IH]; intros k0; [done|].
  simpl. case_bool_decide as Heq.
  - intros [= <-]. subst. exists 0%nat, c. split; [done|]. f_equal. lia.
  - intros (k & color & Hk & ->)%IH. exists (S k), color. split; [done|].
    f_equal. lia.
Qed.

Lemma legend_items_inv (top_3 : list (list N * nat)) (i : Z)
    (text tag : list N) :
  (text, Some tag) ∈ legend_items i top_3 →
  ∃ (k : nat) count,
    top_3 !! k = Some (text, count) ∧ tag = highlight_tag (i + Z.of_nat k + 1).
Proof.
  revert i. induction top_3 as [|[n c] top_3 IH]; intros i.
  - simpl. by intros ?%elem_of_nil.
  - cbn [legend_items]. case_bool_decide; [|by intros ?%elem_of_nil].
    intros Hin. apply elem_of_app in Hin as [Hin|Hin].
    + apply elem_of_cons in Hin as [[=]|Hin].
      apply elem_of_cons in Hin as [[= -> ->]|Hin].
      * exists 0%nat, c. split; [done|]. f_equal. lia.
      * apply elem_of_cons in Hin as [[=]|Hin]. by apply elem_of_nil in Hin.
    + apply IH in Hin as (k & count & Hk & ->). exists (S k), count.
      split; [done|]. f_equal. lia.
Qed.

Lemma spaced_syllables_elem (tag : list N → option (list N))
    (syllables : list (list N)) (text t : list N) :
  (text, Some t) ∈ spaced_syllables tag syllables →
  text ∈ syllables ∧ tag text = Some t.
Proof.
  induction syllables as [|x l IH]; [by intros ?%elem_of_nil|].
  cbn [spaced_syllables]. intros Hin.
  apply elem_of_cons in Hin as [[= -> Ht]|Hin]; [split; [by left | done]|].
  destruct l as [|y l]; [by apply elem_of_nil in Hin|].
  apply elem_of_cons in Hin as [[=]|Hin].
  destruct (IH Hin) as [? ?]. split; [by right | done].
Qed.

Lemma tagged_by_rank_app (top : list (list N * nat)) l1 l2 :
  tagged_by_rank top l1 → tagged_by_rank top l2 → tagged_by_rank top (l1 ++ l2).
Proof.
  intros H1 H2 text tag [Hin|Hin]%elem_of_app; [by apply H1 | by apply H2].
Qed.

Lemma tagged_by_rank_untagged (top : list (list N * nat)) (text : list N) :
  tagged_by_rank top [(text, None)].
Proof.
  intros t tag Hin. apply elem_of_cons in Hin as [[=]|Hin].
  by apply elem_of_nil in Hin.
Qed.

Lemma tagged_by_rank_concat (top : list (list N * nat)) ls :
  Forall (tagged_by_rank top) ls → tagged_by_rank top (concat ls).
Proof.
  induction 1 as [|l ls Hl _ IH]; simpl.
  - by intros t tag ?%elem_of_nil.
  - by apply tagged_by_rank_app.
Qed.

Lemma highlight_colors_map_zip (top : list (list N * nat)) :
  NoDup top.*1 → highlight_colors_map top = Ret (zip top.*1 colors).
Proof.
  intros Hdup. unfold highlight_colors_map.
  by apply (highlight_colors_from_spec top 0 []).
Qed.

Lemma zip_colors_keys (top : list (list N * nat)) :
  (length top ≤ 3)%nat → (zip top.*1 colors).*1 = top.*1.
Proof. intros Hlen. apply fst_zip. rewrite length_fmap. simpl. lia. Qed.

Lemma zip_colors_lookup (top : list (list N * nat)) (k : nat)
    (syllable color : list N) :
  (length top ≤ 3)%nat →
  zip top.*1 colors !! k = Some (syllable, color) →
  ∃ count, top !! k = Some (syllable, count).
Proof.
  intros Hlen Hk. assert ((zip top.*1 colors).*1 !! k = Some syllable) as Hk'.
  { by rewrite list_lookup_fmap, Hk. }
  rewrite zip_colors_keys, list_lookup_fmap in Hk' by done.
  destruct (top !! k) as [[s count]|]; [|done]. injection Hk' as ->. eauto.
Qed.

Lemma display_syllables_tagged (top : list (list N * nat))
    (syllables : list (list N)) :
  (length top ≤ 3)%nat →
  tagged_by_rank top (display_syllables (zip top.*1 colors) syllables).
Proof.
  intros Hlen. rewrite display_syllables_spaced. intros text tag Hin.
  apply spaced_syllables_elem in Hin as [_ Htag].
  apply find_tag_inv in Htag as (k & color & Hk & ->).
  apply zip_colors_lookup in Hk as [count Hk]; [|done].
  exists k, count. split; [done|]. f_equal.
Qed.

Lemma legend_tagged (top : list (list N * nat)) : tagged_by_rank top (legend top).
Proof.
  unfold legend. case_bool_decide; [by intros t tag ?%elem_of_nil|].
  intros text tag Hin.
  apply elem_of_cons in Hin as [[=]|Hin].
  apply elem_of_cons in Hin as [[=]|Hin].
  apply elem_of_app in Hin as [Hin|Hin].
  - apply legend_items_inv in Hin as (k & count & Hk & ->).
    exists k, count. split; [done|]. f_equal.
  - apply elem_of_cons in Hin as [[=]|Hin]. by apply elem_of_nil in Hin.
Qed.

(** Lines 338-384: the line of a chord. *)
Lemma display_chord_spec (U : unicode) (transposition : Z)
    (hmap : list (list N * list N)) (chord : list N) :
  ∃ syllables,
    chord_solfege_notes U transposition chord = Ret syllables
    ∧ display_chord U transposition hmap chord
      = Ret (if recognised U chord
             then [(lit "   " ++ chord ++ lit ": ", None)]
                  ++ display_syllables hmap syllables ++ [(nl, None)]
             else [(lit "   " ++ chord ++ lit ": 無効なコード" ++ nl, None)]).
Proof.
  pose proof (chord_solfege_notes_spec U transposition chord) as Hspec.
  unfold display_chord. unfold chord_solfege_notes in *.
  destruct (get_pentatonic_scale_notes_total U chord) as (data & Hdata).
  rewrite Hdata in *. cbn [mbind res_bind bind] in *.
  destruct data as [[[scale m] nt]|].
  - destruct Hspec as (-> & syllables & Hs & _). rewrite Hs. eauto.
  - destruct Hspec as [-> _]. eauto.
Qed.

Lemma display_chord_tagged (U : unicode) (transposition : Z)
    (top : list (list N * nat)) (chord : list N) inserted :
  (length top ≤ 3)%nat →
  display_chord U transposition (zip top.*1 colors) chord = Ret inserted →
  tagged_by_rank top inserted.
Proof.
  intros Hlen.
  destruct (display_chord_spec U transposition (zip top.*1 colors) chord)
    as (syllables & _ & ->).
  intros <-%Ret_inj.
  destruct (recognised U chord); [|apply tagged_by_rank_untagged].
  apply tagged_by_rank_app; [apply tagged_by_rank_untagged|].
  apply tagged_by_rank_app; [by apply display_syllables_tagged
                            | apply tagged_by_rank_untagged].
Qed.

(** Lines 331-385: the lines of a measure. *)
Lemma display_measure_spec (U : unicode) (transposition : Z)
    (hmap : list (list N * list N)) (i : nat) (measure_chords : list (list N)) :
  ∃ chords,
    Forall2 (λ chord inserted,
               display_chord U transposition hmap chord = Ret inserted)
            measure_chords chords
    ∧ display_measure U transposition hmap i measure_chords
      = Ret ([(lit " " ++ format_2d (Z.of_nat i + 1) ++ lit "小節目:" ++ nl, None)]
             ++ (if bool_decide (measure_chords = [])
                 then [(lit "  （コードなし）" ++ nl ++ nl, None)]
                 else concat chords ++ [(nl, None)])).
Proof.
  unfold display_measure.
  destruct (for_each_Forall2 (display_chord U transposition hmap)
              (λ chord inserted,
                 display_chord U transposition hmap chord = Ret inserted)
              measure_chords) as (chords & Hchords & Hall).
  { intros chord _. destruct (display_chord_total U transposition hmap chord)
      as (inserted & ->). eauto. }
  exists chords. split; [done|]. case_bool_decide; [done|]. by rewrite Hchords.
Qed.

Lemma display_measure_tagged (U : unicode) (transposition : Z)
    (top : list (list N * nat)) (i : nat) (measure_chords : list (list N))
    inserted :
  (length top ≤ 3)%nat →
  display_measure U transposition (zip top.*1 colors) i measure_chords
  = Ret inserted →
  tagged_by_rank top inserted.
Proof.
  intros Hlen.
  destruct (display_measure_spec U transposition (zip top.*1 colors) i
              measure_chords) as (chords & Hall & ->).
  intros <-%Ret_inj. apply tagged_by_rank_app; [apply tagged_by_rank_untagged|].
  case_bool_decide; [apply tagged_by_rank_untagged|].
  apply tagged_by_rank_app; [|apply tagged_by_rank_untagged].
  apply tagged_by_rank_concat.
  eapply Forall2_Forall_r; [exact Hall|]. apply Forall_forall.
  intros chord _ ins. by apply display_chord_tagged.
Qed.

(** Lines 315-399: the whole display. *)
Lemma display_phase_spec (U : unicode) (key : list N) (transposition : Z)
    (all_measures_data : list (list (list N))) (top : list (list N * nat)) :
  NoDup top.*1 →
  ∃ measures,
    Forall2 (λ im inserted,
               display_measure U transposition (zip top.*1 colors) im.1 im.2
               = Ret inserted)
            (imap pair all_measures_data) measures
    ∧ display_phase U key transposition all_measures_data top
      = Ret (tag_configs (zip top.*1 colors),
             [(lit "--- ペンタトニックスケール表示 --- 記譜音(" ++ key
               ++ lit "管)" ++ nl ++ nl, None)]
             ++ concat measures ++ legend top).
Proof.
  intros Hdup. unfold display_phase. rewrite highlight_colors_map_zip by done.
  cbn [mbind res_bind bind].
  match goal with |- context [for_each ?f ?l] =>
    destruct (for_each_Forall2 f
                (λ im inserted,
                   display_measure U transposition (zip top.*1 colors) im.1 im.2
                   = Ret inserted)
                l) as (measures & Hm & Hall) end.
  { intros [i measure] _.
    destruct (display_measure_total U transposition (zip top.*1 colors) i measure)
      as (inserted & Hins). exists inserted. split; exact Hins. }
  exists measures. split; [exact Hall|]. by rewrite Hm.
Qed.

(** X17: the highlighting follows the ranking.  The item of rank k
    (counting from 0) of the ranking gets the tag highlight_(k+1),
    configured with the k-th colour of red, blue, green, and its syllable
    stands under that tag in the legend; a syllable that is not in the
    ranking has no tag.  The line of a chord is its name, then its
    syllables, the ones the tally counted, each inserted under its tag or
    without one, with single spaces between them; a measure is its header
    and the lines of its chords; the text displayed is the title, the
    measures and then the legend, and every piece of it that is inserted
    under a tag is an item of the ranking, under the tag of its rank. *)
Theorem highlight_follows_ranking (U : unicode) (key : list N)
    (transposition : Z) (all_measures_data : list (list (list N)))
    (all_solfege : list (list N)) :
  let top := top_3_notes_info all_solfege in
  ∃ hmap measures,
    highlight_colors_map top = Ret hmap
    ∧ hmap = zip top.*1 colors
    ∧ (∀ (k : nat) syllable count,
         top !! k = Some (syllable, count) →
         ∃ color,
           colors !! k = Some color
           ∧ tag_configs hmap !! k = Some (highlight_tag (Z.of_nat k + 1), color)
           ∧ find_tag syllable 0 hmap = Some (highlight_tag (Z.of_nat k + 1))
           ∧ (syllable, Some (highlight_tag (Z.of_nat k + 1))) ∈ legend top)
    ∧ (∀ syllable, syllable ∉ top.*1 → find_tag syllable 0 hmap = None)
    ∧ colors = [lit "red"; lit "blue"; lit "green"]
    ∧ (∀ syllables,
         display_syllables hmap syllables
         = spaced_syllables (λ syllable, find_tag syllable 0 hmap) syllables)
    ∧ (∀ chord_name_raw,
         ∃ syllables,
           chord_solfege_notes U transposition chord_name_raw = Ret syllables
           ∧ display_chord U transposition hmap chord_name_raw
             = Ret (if recognised U chord_name_raw
                    then [(lit "   " ++ chord_name_raw ++ lit ": ", None)]
                         ++ display_syllables hmap syllables ++ [(nl, None)]
                    else [(lit "   " ++ chord_name_raw ++ lit ": 無効なコード" ++ nl,
                           None)]))
    ∧ (∀ (i : nat) measure_chords,
         ∃ chords,
           Forall2 (λ chord_name_raw inserted,
                      display_chord U transposition hmap chord_name_raw
                      = Ret inserted) measure_chords chords
           ∧ display_measure U transposition hmap i measure_chords
             = Ret ([(lit " " ++ format_2d (Z.of_nat i + 1) ++ lit "小節目:" ++ nl,
                      None)]
                    ++ (if bool_decide (measure_chords = [])
                        then [(lit "  （コードなし）" ++ nl ++ nl, None)]
                        else concat chords ++ [(nl, None)])))
    ∧ Forall2 (λ im inserted,
                 display_measure U transposition hmap im.1 im.2 = Ret inserted)
              (imap pair all_measures_data) measures
    ∧ display_phase U key transposition all_measures_data top
      = Ret (tag_configs hmap,
             [(lit "--- ペンタトニックスケール表示 --- 記譜音(" ++ key
               ++ lit "管)" ++ nl ++ nl, None)]
             ++ concat measures ++ legend top)
    ∧ tagged_by_rank top
        ([(lit "--- ペンタトニックスケール表示 --- 記譜音(" ++ key
           ++ lit "管)" ++ nl ++ nl, None)]
         ++ concat measures ++ legend top).
Proof.
  cbv zeta.
  destruct (most_common_Counter 3 all_solfege) as (Hlen & Hdup & _).
  fold (top_3_notes_info all_solfege) in Hlen, Hdup.
  set (top := top_3_notes_info all_solfege) in *.
  destruct (display_phase_spec U key transposition all_measures_data top Hdup)
    as (measures & Hmeasures & Hphase).
  exists (zip top.*1 colors), measures.
  split; [by apply highlight_colors_map_zip|]. split; [done|].
  assert ((zip top.*1 colors).*1 = top.*1) as Hkeys by (by apply zip_colors_keys).
  split.
  { intros k syllable count Hk.
    assert (k < 3)%nat as Hk3 by (apply lookup_lt_Some in Hk; lia).
    destruct (lookup_lt_is_Some_2 colors k) as [color Hcolor]; [simpl; lia|].
    assert (zip top.*1 colors !! k = Some (syllable, color)) as Hzip.
    { apply lookup_zip_with_Some. exists syllable, color.
      split; [done|]. split; [|done]. by rewrite list_lookup_fmap, Hk. }
    exists color. split; [done|]. split; [|split].
    + unfold tag_configs. by rewrite list_lookup_imap, Hzip.
    + rewrite (find_tag_found _ 0 _ k color) by (done || by rewrite Hkeys).
      do 2 f_equal.
    + unfold legend.
      rewrite bool_decide_eq_false_2 by (by intros Hnil; rewrite Hnil in Hk).
      do 2 right. apply elem_of_app. left.
      replace (Z.of_nat k + 1) with (0 + Z.of_nat k + 1) by lia.
      eapply legend_items_elem; [lia | unfold len; simpl; lia | done]. }
  split.
  { intros syllable Hnot. apply find_tag_not_found. by rewrite Hkeys. }
  split; [done|].
  split; [apply display_syllables_spaced|].
  split; [apply display_chord_spec|].
  split; [apply display_measure_spec|].
  split; [exact Hmeasures|]. split; [exact Hphase|].
  apply tagged_by_rank_app; [apply tagged_by_rank_untagged|].
  apply tagged_by_rank_app; [|apply legend_tagged].
  apply tagged_by_rank_concat.
  eapply Forall2_Forall_r; [exact Hmeasures|]. apply Forall_forall.
  intros [i measure] _ inserted. by apply display_measure_tagged.
Qed.

(** X18: the handler never raises.  For every state of the form
    [run_analysis_gui] ends with one of its outcomes, and for every key,
    transposition, progression and ranking the display phase returns the
    tags and the text to insert. *)
Theorem handler_never_raises (U : unicode) :
  (∀ f, ∃ result, run_analysis_gui U f = Ret result)
  ∧ (∀ key transposition all_measures_data top_3,
       ∃ displayed,
         display_phase U key transposition all_measures_data top_3 = Ret displayed)
  ∧ (∀ f, ∃ result, update_measure_inputs f = Ret result).
Proof.
  split; [|split].
  - intros f. unfold run_analysis_gui. case_bool_decide; [eauto|].
    destruct (get_transposition_semitones U (strip U (key_var f)))
      as [transposition|]; [|eauto].
    destruct (measure_count f) as [count|]; [|eauto].
    match goal with |- context [negb ?b] => destruct b end; simpl; [|eauto].
    match goal with |- context [all_solfege_notes_for_counting U ?t ?d] =>
      destruct (all_solfege_notes_for_counting_total U t d) as (all & ->) end.
    simpl. eauto.
  - intros key transposition data top_3. unfold display_phase.
    destruct (highlight_colors_from_total top_3 0 []) as (hmap & Hmap); [lia|].
    unfold highlight_colors_map. rewrite Hmap. cbn [mbind res_bind bind].
    match goal with |- context [for_each ?f ?l] =>
      destruct (for_each_Forall f (λ _, True) l) as (ms & -> & _) end;
      [|simpl; eauto].
    intros [i measure] _.
    destruct (display_measure_total U transposition hmap i measure)
      as (inserted & ->). eauto.
  - intros f. unfold update_measure_inputs.
    replace (getitem chord_options 0) with (Ret (A:=list N) []) by (by vm_compute).
    cbn [mbind res_bind bind]. destruct (measure_count f) as [n|]; [|eauto].
    destruct (bool_decide (1 ≤ n) && bool_decide (n ≤ MAX_MEASURES)); eauto.
Qed.
